(** * SqlRender: the SQL translation engine of [SqlTranslate.cpp]

    A shallow embedding of [ohdsi::sqlRender::SqlTranslate] (tokenizer,
    search-pattern parser, matcher and rewriter) and the properties of it
    that the specification states.

    Conventions of the embedding:
    - [String] is [std::string]; it is modelled by [string], a sequence of
      8-bit characters.
    - [size_t] is modelled by [N].  Offsets into a string never exceed its
      length, which is below [2^64], so increments of a cursor are written
      without reduction; the subtractions of the source that are not
      guarded by a comparison are written with their wrap-around ([sub_sz]).
    - A C++ exception, an out-of-range [operator[]] (undefined behaviour)
      and an exhausted iteration budget of the unbounded replace loop are
      the three ways in which a call does not return a value
      ([outcome]). *)

From Stdlib Require Import String Ascii List Arith NArith Bool Lia Permutation.
From Stdlib Require Import OrderedTypeEx.
Import ListNotations.

Local Open Scope string_scope.
Local Open Scope list_scope.
Local Open Scope N_scope.

(** ** Outcomes of a call *)

Inductive exn : Type :=
| out_of_range                      (* std::out_of_range *)
| invalid_argument (what : string). (* std::invalid_argument *)

Inductive outcome (A : Type) : Type :=
| Ok (a : A)        (* the call returns [a] *)
| Throw (e : exn)   (* the call leaves by a C++ exception *)
| Undefined         (* unchecked [operator[]] outside the vector *)
| NoFuel.           (* the replace loop did not finish within the budget *)

Arguments Ok {A} a.
Arguments Throw {A} e.
Arguments Undefined {A}.
Arguments NoFuel {A}.

Definition bind {A B : Type} (m : outcome A) (k : A -> outcome B) : outcome B :=
  match m with
  | Ok a => k a
  | Throw e => Throw e
  | Undefined => Undefined
  | NoFuel => NoFuel
  end.

Notation "x <- m ;; k" := (bind m (fun x => k))
  (at level 61, m at next level, right associativity).

(** ** [size_t] and [std::string] primitives *)

Definition size_t : Type := N.

Definition two64 : N := 18446744073709551616.

(** [std::string::npos], the largest [size_t]. *)
Definition npos : size_t := 18446744073709551615.

(** Unsigned subtraction [a - b] on [size_t], reduced modulo [2^64]. *)
Definition sub_sz (a b : size_t) : size_t :=
  if b <=? a then a - b else a + two64 - b.

(** [s.length()] *)
Definition size (s : string) : size_t := N.of_nat (String.length s).

(** [s.at(pos)]: bounds-checked access, throws [std::out_of_range]. *)
Definition at_ (s : string) (pos : size_t) : outcome ascii :=
  if pos <? size s then
    match String.get (N.to_nat pos) s with
    | Some ch => Ok ch
    | None => Throw out_of_range
    end
  else Throw out_of_range.

(** [s.substr(pos, n)]: throws [std::out_of_range] when [pos > size()],
    otherwise the [min n (size() - pos)] characters from [pos]. *)
Definition substr (s : string) (pos n : size_t) : outcome string :=
  if size s <? pos then Throw out_of_range
  else Ok (String.substring (N.to_nat pos) (N.to_nat (N.min n (size s - pos))) s).

(** ** [<cctype>] in the "C" locale

    A character outside ASCII is in none of the classes. *)

Definition in_range (lo hi : N) (ch : ascii) : bool :=
  (lo <=? N_of_ascii ch) && (N_of_ascii ch <=? hi).

Definition isdigit (ch : ascii) : bool := in_range 48 57 ch.
Definition isupper (ch : ascii) : bool := in_range 65 90 ch.
Definition islower (ch : ascii) : bool := in_range 97 122 ch.
Definition isalnum (ch : ascii) : bool := isdigit ch || isupper ch || islower ch.

(** space, and the control characters from ['\t'] to ['\r'] *)
Definition isspace (ch : ascii) : bool :=
  (N_of_ascii ch =? 32) || in_range 9 13 ch.

Definition tolower (ch : ascii) : ascii :=
  if isupper ch then ascii_of_N (N_of_ascii ch + 32) else ch.

(** Modelled from the spec: [toLowerCase], declared outside
    [SqlTranslate.cpp]; "lower-case the subject" / "lower-case the pattern
    text": every character is replaced by its lower-case form. *)
Fixpoint toLowerCase (s : string) : string :=
  match s with
  | EmptyString => EmptyString
  | String ch rest => String (tolower ch) (toLowerCase rest)
  end.

(** ** Data model *)

(** Modelled from the spec: the structures of [SqlTranslate.h].
    "Token: {start, end: byte offsets into the source string; text: the
    substring}". *)
Module Token.
Record t : Type := mk { start : size_t; end_ : size_t; text : string }.
End Token.

(** "Block: a compiled pattern element: {text: String, isVariable: bool}";
    [Block block(token)] takes the text of the token and is not a variable. *)
Module Block.
Record t : Type := mk { text : string; isVariable : bool }.
Definition of_token (token : Token.t) : t := mk (Token.text token) false.
End Block.

(** ** The tokenizer *)

Definition newline : ascii := ascii_of_N 10.

(** The local variables of [tokenize] other than the cursor. *)
Record tokenizer : Type := mkTokenizer {
  tokens : list Token.t;
  start : size_t;
  commentType1 : bool;   (* Type 1: -- ... end of line *)
  commentType2 : bool    (* Type 2: /* .. */ *)
}.

(** [if (cursor > start) { ...; tokens.push_back(token); }] *)
Definition push_pending (sql : string) (toks : list Token.t)
    (start cursor : size_t) : outcome (list Token.t) :=
  if start <? cursor then
    txt <- substr sql start (cursor - start) ;;
    Ok (toks ++ [Token.mk start cursor txt])
  else Ok toks.

(** [ch == c && guard && sql.at(pos) == d], evaluated left to right with
    short-circuiting. *)
Definition and_at (sql : string) (ch c : ascii) (guard : bool)
    (pos : size_t) (d : ascii) : outcome bool :=
  if (ch =? c)%char then
    if guard then
      other <- at_ sql pos ;; Ok (other =? d)%char
    else Ok false
  else Ok false.

(** One execution of the body of the [for] loop (lines 55-88). *)
Definition tokenize_body (sql : string) (cursor : size_t) (st : tokenizer)
    : outcome tokenizer :=
  ch <- at_ sql cursor ;;
  if commentType1 st then
    if (ch =? newline)%char then
      Ok (mkTokenizer (tokens st) (cursor + 1) false (commentType2 st))
    else Ok st
  else if commentType2 st then
    closes <- and_at sql ch "/" (0 <? cursor) (cursor - 1) "*" ;;
    if closes then
      Ok (mkTokenizer (tokens st) (cursor + 1) (commentType1 st) false)
    else Ok st
  else if negb (isalnum ch) && negb (ch =? "_")%char && negb (ch =? "@")%char then
    toks <- push_pending sql (tokens st) (start st) cursor ;;
    dashes <- and_at sql ch "-" (cursor <? size sql) (cursor + 1) "-" ;;
    if dashes then
      Ok (mkTokenizer toks (cursor + 1) true (commentType2 st))
    else
      slash_star <- and_at sql ch "/" (cursor <? size sql) (cursor + 1) "*" ;;
      if slash_star then
        Ok (mkTokenizer toks (cursor + 1) (commentType1 st) true)
      else if negb (isspace ch) then
        txt <- substr sql cursor 1 ;;
        Ok (mkTokenizer (toks ++ [Token.mk cursor (cursor + 1) txt])
                        (cursor + 1) (commentType1 st) (commentType2 st))
      else
        Ok (mkTokenizer toks (cursor + 1) (commentType1 st) (commentType2 st))
  else Ok st.

(** [for (; cursor < sql.length(); cursor++)]: [n] is the number of
    iterations left, [sql.length() - cursor]. *)
Fixpoint tokenize_loop (sql : string) (n : nat) (cursor : size_t)
    (st : tokenizer) : outcome tokenizer :=
  match n with
  | O => Ok st
  | S n' =>
      st' <- tokenize_body sql cursor st ;;
      tokenize_loop sql n' (cursor + 1) st'
  end.

Definition tokenize (sql : string) : outcome (list Token.t) :=
  st <- tokenize_loop sql (String.length sql) 0 (mkTokenizer [] 0 false false) ;;
  push_pending sql (tokens st) (start st) (size sql).

(** ** The search-pattern parser *)

(** [v[i]] on a [std::vector]: no bounds check, undefined outside. *)
Definition index {A : Type} (v : list A) (i : size_t) : outcome A :=
  if i <? N.of_nat (List.length v) then
    match nth_error v (N.to_nat i) with
    | Some x => Ok x
    | None => Undefined
    end
  else Undefined.

(** [v.size()] *)
Definition vsize {A : Type} (v : list A) : size_t := N.of_nat (List.length v).

(** The body of the loop of lines 105-110: the block of one token, marked
    as a variable when [block.text.length() > 1 && block.text.at(0) == '@']. *)
Definition to_block (token : Token.t) : Block.t :=
  let block := Block.of_token token in
  if (1 <? size (Block.text block))
     && match String.get 0 (Block.text block) with
        | Some ch => (ch =? "@")%char
        | None => false
        end
  then Block.mk (Block.text block) true
  else block.

Definition pattern_error (pattern : string) : exn :=
  invalid_argument
    ("Error in search pattern: pattern cannot start or end with a variable: "
       ++ pattern)%string.

Definition parseSearchPattern (pattern : string) : outcome (list Block.t) :=
  tokens <- tokenize (toLowerCase pattern) ;;
  let blocks := map to_block tokens in
  first <- index blocks 0 ;;
  if Block.isVariable first then Throw (pattern_error pattern)
  else
    last <- index blocks (sub_sz (vsize blocks) 1) ;;
    if Block.isVariable last then Throw (pattern_error pattern)
    else Ok blocks.

(** ** The matcher *)

(** [std::map<String, String>]: the bindings in ascending order of their
    keys, which is the order in which an iterator visits them. *)
Module StringMap.
Definition t : Type := list (string * string).

(** [m[k] = v] *)
Fixpoint assign (k v : string) (m : t) : t :=
  match m with
  | [] => [(k, v)]
  | (k', v') :: m' =>
      match String.compare k k' with
      | Lt => (k, v) :: m
      | Eq => (k, v) :: m'
      | Gt => (k', v') :: assign k v m'
      end
  end.

Fixpoint find (k : string) (m : t) : option string :=
  match m with
  | [] => None
  | (k', v') :: m' => if (k =? k')%string then Some v' else find k m'
  end.

Definition keys (m : t) : list string := map fst m.
End StringMap.

(** Modelled from the spec: [MatchedPattern] of [SqlTranslate.h],
    "MatchResult: {start, end: Option<offset> into the searched string;
    bindings}"; an offset that is not set is [npos], the "not found"
    sentinel of the source.  [search] assigns [start] and [end] before it
    returns a match for a pattern that starts with a literal, and [start]
    before it reports that there is none. *)
Module MatchedPattern.
Record t : Type := mk {
  start : size_t;
  end_ : size_t;
  variableToValue : StringMap.t
}.
Definition init : t := mk npos npos [].
Definition with_start (s : size_t) (m : t) : t := mk s (end_ m) (variableToValue m).
Definition with_end (e : size_t) (m : t) : t := mk (start m) e (variableToValue m).
Definition bind_variable (k v : string) (m : t) : t :=
  mk (start m) (end_ m) (StringMap.assign k v (variableToValue m)).
End MatchedPattern.

(** The local variables of [search] that change along the scan. *)
Record matcher : Type := mkMatcher {
  matchCount : size_t;
  varStart : size_t;
  nestStack : list string;         (* top of the stack first *)
  matchedPattern : MatchedPattern.t
}.

(** What one execution of the loop body ends with. *)
Inductive flow : Type :=
| Return (result : MatchedPattern.t)
| Next (st : matcher).

Definition dquote : string := String (ascii_of_N 34) EmptyString.
Definition squote : string := "'".

Definition is_quote (s : string) : bool := (s =? dquote)%string || (s =? squote)%string.

(** [nestStack.size() != 0 && p(nestStack.top())] *)
Definition top_is (p : string -> bool) (nestStack : list string) : bool :=
  match nestStack with
  | [] => false
  | top :: _ => p top
  end.

(** Lines 139-150: the effect on the nesting stack of a token that a
    variable absorbs. *)
Definition track_nesting (text : string) (nestStack : list string) : list string :=
  if top_is is_quote nestStack then         (* inside quoted string *)
    if top_is (String.eqb text) nestStack then tl nestStack else nestStack
  else if is_quote text then text :: nestStack
  else if (text =? "(")%string then text :: nestStack
  else if (text =? ")")%string && top_is (String.eqb "(") nestStack then tl nestStack
  else nestStack.

(** Lines 132-137 and 158-163: after [matchCount] moved forward to [mc]. *)
Definition advance (parsedPattern : list Block.t) (token : Token.t)
    (mc : size_t) (st : matcher) (mp : MatchedPattern.t) : outcome flow :=
  if mc =? vsize parsedPattern then
    Ok (Return (MatchedPattern.with_end (Token.end_ token) mp))
  else
    blk <- index parsedPattern mc ;;
    Ok (Next (mkMatcher mc
                (if Block.isVariable blk then Token.end_ token else varStart st)
                (nestStack st) mp)).

(** One execution of the body of the loop of [search] (lines 126-167). *)
Definition search_body (sql : string) (parsedPattern : list Block.t)
    (token : Token.t) (st : matcher) : outcome flow :=
  cur <- index parsedPattern (matchCount st) ;;
  if Block.isVariable cur then
    terminates <-
      match nestStack st with
      | [] =>
          nxt <- index parsedPattern (matchCount st + 1) ;;
          Ok (Token.text token =? Block.text nxt)%string
      | _ :: _ => Ok false
      end ;;
    if terminates then
      value <- substr sql (varStart st) (sub_sz (Token.start token) (varStart st)) ;;
      advance parsedPattern token (matchCount st + 2) st
        (MatchedPattern.bind_variable (Block.text cur) value (matchedPattern st))
    else
      Ok (Next (mkMatcher (matchCount st) (varStart st)
                  (track_nesting (Token.text token) (nestStack st))
                  (matchedPattern st)))
  else
    if (Token.text token =? Block.text cur)%string then
      advance parsedPattern token (matchCount st + 1) st
        (if matchCount st =? 0
         then MatchedPattern.with_start (Token.start token) (matchedPattern st)
         else matchedPattern st)
    else
      Ok (Next (mkMatcher 0 (varStart st) (nestStack st) (matchedPattern st))).

(** The loop over the tokens of the subject, and what follows it when no
    iteration returned. *)
Fixpoint search_loop (sql : string) (parsedPattern : list Block.t)
    (tokens : list Token.t) (st : matcher) : outcome MatchedPattern.t :=
  match tokens with
  | [] => Ok (MatchedPattern.with_start npos (matchedPattern st))
  | token :: rest =>
      r <- search_body sql parsedPattern token st ;;
      match r with
      | Return result => Ok result
      | Next st' => search_loop sql parsedPattern rest st'
      end
  end.

Definition search (sql : string) (parsedPattern : list Block.t)
    : outcome MatchedPattern.t :=
  let lowercaseSql := toLowerCase sql in
  tokens <- tokenize lowercaseSql ;;
  search_loop sql parsedPattern tokens (mkMatcher 0 0 [] MatchedPattern.init).

(** ** The rewriter *)

(** Modelled from the spec: [replaceAll], declared outside
    [SqlTranslate.cpp]; "exact literal substring replacement (not
    token-aware) wherever they occur in the template": a scan from the left
    that replaces each occurrence of [search] it meets and resumes behind
    it.  [skip] counts the characters of an occurrence still to pass.  A
    variable name is never empty; an empty [search] replaces nothing. *)
Fixpoint replaceAll_from (skip : nat) (source search replace : string) : string :=
  match source with
  | EmptyString => EmptyString
  | String ch rest =>
      match skip with
      | S skip' => replaceAll_from skip' rest search replace
      | O =>
          if String.prefix search source then
            (replace ++ replaceAll_from (String.length search - 1) rest search replace)%string
          else String ch (replaceAll_from 0 rest search replace)
      end
  end.

Definition replaceAll (source search replace : string) : string :=
  match search with
  | EmptyString => source
  | _ => replaceAll_from 0 source search replace
  end.

(** Lines 177-180: the template with every binding substituted, in the
    order of the iterator of the map. *)
Definition substitute (replacePattern : string) (bindings : list (string * string))
    : string :=
  fold_left (fun replacement kv => replaceAll replacement (fst kv) (snd kv))
            bindings replacePattern.

(** Line 181 *)
Definition splice (result : string) (m : MatchedPattern.t) (replacement : string)
    : outcome string :=
  before <- substr result 0 (MatchedPattern.start m) ;;
  after <- substr result (MatchedPattern.end_ m)
             (sub_sz (size result) (MatchedPattern.end_ m)) ;;
  Ok (before ++ replacement ++ after)%string.

(** The [while] loop of [searchAndReplace]; it has no bound in the source,
    [fuel] bounds the number of times its condition is evaluated. *)
Fixpoint replace_loop (fuel : nat) (result : string) (parsedPattern : list Block.t)
    (replacePattern : string) (m : MatchedPattern.t) : outcome string :=
  match fuel with
  | O => NoFuel
  | S fuel' =>
      if MatchedPattern.start m =? npos then Ok result
      else
        let replacement := substitute replacePattern (MatchedPattern.variableToValue m) in
        result' <- splice result m replacement ;;
        m' <- search result' parsedPattern ;;
        replace_loop fuel' result' parsedPattern replacePattern m'
  end.

Definition searchAndReplace (fuel : nat) (sql : string)
    (parsedPattern : list Block.t) (replacePattern : string) : outcome string :=
  m <- search sql parsedPattern ;;
  replace_loop fuel sql parsedPattern replacePattern m.

Fixpoint translateSql (fuel : nat) (str : string)
    (replacementPatterns : list (string * string)) : outcome string :=
  match replacementPatterns with
  | [] => Ok str
  | rule :: rest =>
      parsedPattern <- parseSearchPattern (fst rule) ;;
      result <- searchAndReplace fuel str parsedPattern (snd rule) ;;
      translateSql fuel result rest
  end.

(** * Vocabulary of the properties *)

(** The string of one line feed. *)
Definition nl : string := String newline EmptyString.

(** The token is a non-empty slice of [sql] and its text is that slice. *)
Definition well_sliced (sql : string) (t : Token.t) : Prop :=
  Token.start t < Token.end_ t /\ Token.end_ t <= size sql /\
  Token.text t =
    String.substring (N.to_nat (Token.start t))
                     (N.to_nat (Token.end_ t - Token.start t)) sql.

(** The tokens follow each other without overlap between [lo] and [hi]. *)
Fixpoint chain (lo hi : N) (l : list Token.t) : Prop :=
  match l with
  | [] => lo <= hi
  | t :: l' => lo <= Token.start t /\ Token.start t < Token.end_ t
               /\ chain (Token.end_ t) hi l'
  end.

(** What holds of the state of [tokenize] when the cursor is at [cursor]. *)
Record tokenizer_inv (sql : string) (cursor : size_t) (st : tokenizer) : Prop := {
  inv_start : start st <= cursor;
  inv_sliced : Forall (well_sliced sql) (tokens st);
  inv_chain : chain 0 (start st) (tokens st)
}.

(** What [parseSearchPattern] guarantees of the blocks it returns: there
    is a first block, it is a literal, and a variable is never the last
    block. *)
Record compiled (pat : list Block.t) : Prop := {
  compiled_first : exists b, index pat 0 = Ok b /\ Block.isVariable b = false;
  compiled_last : forall i b,
      index pat i = Ok b -> Block.isVariable b = true -> i + 1 < vsize pat
}.

(** The states of the scan: [reaches sql pat done st] when the loop is in
    state [st] after the tokens [done], none of which ended the scan. *)
Inductive reaches (sql : string) (pat : list Block.t)
    : list Token.t -> matcher -> Prop :=
| reaches_start :
    reaches sql pat [] (mkMatcher 0 0 [] MatchedPattern.init)
| reaches_next (done : list Token.t) (token : Token.t) (st st' : matcher) :
    reaches sql pat done st ->
    search_body sql pat token st = Ok (Next st') ->
    reaches sql pat (done ++ [token]) st'.

Definition no_Undefined {A : Type} (m : outcome A) : Prop :=
  match m with
  | Undefined => False
  | _ => True
  end.

(** The binding [kv] is the text of the subject between the end of the
    token [opening], after which the variable block [var] became the
    current block, and the start of the token [closing], which matched the
    block behind the variable. *)
Definition is_capture (sql : string) (toks : list Token.t) (pat : list Block.t)
    (kv : string * string) : Prop :=
  exists (i : size_t) (var nxt : Block.t) (opening closing : Token.t),
    index pat i = Ok var /\ Block.isVariable var = true /\
    Block.text var = fst kv /\
    index pat (i + 1) = Ok nxt /\ Token.text closing = Block.text nxt /\
    In opening toks /\ In closing toks /\
    Token.end_ opening <= Token.start closing /\
    snd kv = String.substring (N.to_nat (Token.end_ opening))
               (N.to_nat (Token.start closing - Token.end_ opening)) sql.

(** A successful result: it spans from the start of a token to the end of
    a token not before it, and every binding is a capture. *)
Definition found (sql : string) (toks : list Token.t) (pat : list Block.t)
    (m : MatchedPattern.t) : Prop :=
  (exists first last,
      In first toks /\ In last toks /\
      MatchedPattern.start m = Token.start first /\
      MatchedPattern.end_ m = Token.end_ last /\
      Token.start first <= Token.start last)
  /\ Forall (is_capture sql toks pat) (MatchedPattern.variableToValue m).

(** The state of the scan when every token still to come starts at [lo]
    or later. *)
Record matcher_inv (sql : string) (pat : list Block.t) (toks : list Token.t)
  (lo : N) (st : matcher) : Prop := {
  minv_count : matchCount st < vsize pat;
  minv_varStart : varStart st <= lo;
  minv_opening : forall b,
      index pat (matchCount st) = Ok b -> Block.isVariable b = true ->
      exists t, In t toks /\ Token.end_ t = varStart st;
  minv_first : matchCount st <> 0 ->
      exists t, In t toks /\ Token.start t <= lo /\
                MatchedPattern.start (matchedPattern st) = Token.start t;
  minv_bound : Forall (is_capture sql toks pat)
                 (MatchedPattern.variableToValue (matchedPattern st))
}.

Definition flow_inv (sql : string) (pat : list Block.t) (toks : list Token.t)
  (hi : N) (r : flow) : Prop :=
  match r with
  | Return m => found sql toks pat m
  | Next st' => matcher_inv sql pat toks hi st'
  end.





(** The keys increase strictly along the list: the shape of a
    [std::map] under [std::less<String>]. *)
Fixpoint ascending (m : StringMap.t) : Prop :=
  match m with
  | [] => True
  | (k, _) :: m' =>
      (forall k', In k' (StringMap.keys m') -> String.compare k k' = Lt)
      /\ ascending m'
  end.

(** The map after the assignments [m[k] = v] of the bindings [l], in the
    order of [l], starting from [m]. *)
Definition assign_all (l : list (string * string)) (m : StringMap.t) : StringMap.t :=
  fold_left (fun m kv => StringMap.assign (fst kv) (snd kv) m) l m.

(** The state of the scan of [search] after the tokens [tokens], or the
    result with which one of them ended it. *)
Fixpoint scan (sql : string) (parsedPattern : list Block.t)
    (tokens : list Token.t) (st : matcher) : outcome flow :=
  match tokens with
  | [] => Ok (Next st)
  | token :: rest =>
      r <- search_body sql parsedPattern token st ;;
      match r with
      | Return result => Ok (Return result)
      | Next st' => scan sql parsedPattern rest st'
      end
  end.

(** [search] returns and reports that the pattern does not occur. *)
Definition no_match (sql : string) (pat : list Block.t) : Prop :=
  exists m, search sql pat = Ok m /\ MatchedPattern.start m = npos.

(** A rule set in which no template holds an occurrence of a pattern,
    be it the pattern of its own rule or of another one. *)
Definition not_self_matching (rules : list (string * string)) : Prop :=
  Forall (fun rule =>
            exists pat,
              parseSearchPattern (fst rule) = Ok pat /\
              Forall (fun rule' => no_match (snd rule') pat) rules)
         rules.

(** The call returns, or throws [std::out_of_range]. *)
Definition returns_or_out_of_range {A : Type} (m : outcome A) : Prop :=
  match m with
  | Ok _ | Throw out_of_range => True
  | _ => False
  end.


(** The characters that make up a word: the complement of the test of
    line 66. *)
Definition is_word_char (ch : ascii) : bool :=
  isalnum ch || (ch =? "_")%char || (ch =? "@")%char.

Fixpoint all_word (s : string) : bool :=
  match s with
  | EmptyString => true
  | String ch rest => is_word_char ch && all_word rest
  end.

(** A token as the doc comment of [tokenize] describes it: a non-empty run
    of word characters, or one character that is neither a word character
    nor white space. *)
Definition word_or_symbol (t : Token.t) : Prop :=
  (Token.text t <> EmptyString /\ all_word (Token.text t) = true)
  \/ (exists ch, Token.text t = String ch EmptyString
                 /\ is_word_char ch = false /\ isspace ch = false).

(** What holds of the tokens and of the pending word when the cursor of
    [tokenize] is at [cursor]. *)
Definition shape_inv (sql : string) (cursor : size_t) (st : tokenizer) : Prop :=
  Forall word_or_symbol (tokens st)
  /\ (commentType1 st = false -> commentType2 st = false ->
      forall i, (N.to_nat (start st) <= i < N.to_nat cursor)%nat ->
                exists ch, String.get i sql = Some ch /\ is_word_char ch = true).

(** The value of an outcome under a function. *)
Definition map_outcome {A B : Type} (f : A -> B) (o : outcome A) : outcome B :=
  match o with
  | Ok a => Ok (f a)
  | Throw e => Throw e
  | Undefined => Undefined
  | NoFuel => NoFuel
  end.

(** A token with the same offsets and its text in lower case. *)
Definition lower_token (t : Token.t) : Token.t :=
  Token.mk (Token.start t) (Token.end_ t) (toLowerCase (Token.text t)).

Definition lower_tokenizer (st : tokenizer) : tokenizer :=
  mkTokenizer (map lower_token (tokens st)) (start st)
              (commentType1 st) (commentType2 st).

(** The text of the block starts with '@' and goes on. *)
Definition names_variable (text : string) : Prop :=
  exists ch rest, text = String "@"%char (String ch rest).

(** The text of the token that takes [opened] off the nesting stack. *)
Definition closer (opened : string) : string :=
  if is_quote opened then opened else ")".

(** The start of the result is the start of a token of [toks] that has the
    text of the block [first]. *)
Definition starts_at (toks : list Token.t) (first : Block.t)
    (m : MatchedPattern.t) : Prop :=
  exists t, In t toks /\ Token.text t = Block.text first
            /\ MatchedPattern.start m = Token.start t.

(** The variables before [upto] that stand behind a literal are bound. *)
Definition bound_before (pat : list Block.t) (upto : size_t)
    (m : MatchedPattern.t) : Prop :=
  forall i prev var,
    i + 1 < upto ->
    index pat i = Ok prev -> Block.isVariable prev = false ->
    index pat (i + 1) = Ok var -> Block.isVariable var = true ->
    In (Block.text var) (StringMap.keys (MatchedPattern.variableToValue m)).

(** The string holds no '@'. *)
Fixpoint no_at (s : string) : bool :=
  match s with
  | EmptyString => true
  | String ch rest => negb (ch =? "@")%char && no_at rest
  end.

(** The name is '@' followed by characters other than '@'. *)
Definition name_form (k : string) : bool :=
  match k with
  | EmptyString => false
  | String ch body => (ch =? "@")%char && no_at body
  end.

(** No name is the beginning of another name. *)
Definition prefix_free (names : list string) : bool :=
  forallb (fun k1 =>
             forallb (fun k2 => (k1 =? k2)%string || negb (String.prefix k1 k2)) names)
          names.

(** Every '@' of the text is the first character of an occurrence of one
    of the names. *)
Fixpoint covered (names : list string) (t : string) : bool :=
  match t with
  | EmptyString => true
  | String ch rest =>
      (if (ch =? "@")%char then existsb (fun k => String.prefix k t) names else true)
      && covered names rest
  end.

(** The bindings and the template keep the substitutions apart: the names
    have the form of a name and none begins another, no value holds an
    '@', and every '@' of the template begins a bound name. *)
Definition separable (bindings : list (string * string)) (template : string) : bool :=
  forallb name_form (map fst bindings)
  && prefix_free (map fst bindings)
  && forallb no_at (map snd bindings)
  && covered (map fst bindings) template.

(** A text cut into the characters and the names it is made of; [render]
    gives the text back, and [subst_items] puts the characters of the
    value in the place of every occurrence of the name. *)
Inductive item : Type :=
| Lit (ch : ascii)
| Var (k : string).

Fixpoint render (l : list item) : string :=
  match l with
  | [] => EmptyString
  | Lit ch :: l' => String ch (render l')
  | Var k :: l' => (k ++ render l')%string
  end.

Fixpoint lits (v : string) : list item :=
  match v with
  | EmptyString => []
  | String ch rest => Lit ch :: lits rest
  end.

Definition subst_item (k v : string) (it : item) : list item :=
  match it with
  | Lit ch => [Lit ch]
  | Var k' => if (k' =? k)%string then lits v else [Var k']
  end.

Definition subst_items (l : list item) (kv : string * string) : list item :=
  flat_map (subst_item (fst kv) (snd kv)) l.

(** The items are characters other than '@' and names of [names]. *)
Definition items_of (names : list string) (l : list item) : Prop :=
  Forall (fun it => match it with
                    | Lit ch => ch <> "@"%char
                    | Var k => In k names
                    end) l.

(** One round of the loop of [searchAndReplace]: the subject [s] holds a
    match, and [s'] is [s] with the match replaced by the template in
    which the bindings of the match are substituted. *)
Definition round (pat : list Block.t) (template : string) (s s' : string) : Prop :=
  exists m,
    search s pat = Ok m /\ MatchedPattern.start m <> npos /\
    splice s m (substitute template (MatchedPattern.variableToValue m)) = Ok s'.

(** [rounds pat template n s s']: [n] rounds lead from [s] to [s']. *)
Inductive rounds (pat : list Block.t) (template : string)
    : nat -> string -> string -> Prop :=
| rounds_O (s : string) : rounds pat template 0 s s
| rounds_S (n : nat) (s s' s'' : string) :
    round pat template s s' -> rounds pat template n s' s'' ->
    rounds pat template (S n) s s''.

(** * Properties *)

(** ** Outcomes *)

Lemma bind_Ok {A B : Type} (m : outcome A) (k : A -> outcome B) (b : B) :
  bind m k = Ok b -> exists a, m = Ok a /\ k a = Ok b.
Proof.
  destruct m as [a | e | |]; simpl; intros H; try discriminate.
  exists a; split; [reflexivity | exact H].
Qed.

Ltac inv_bind H :=
  let x := fresh "x" in
  let E := fresh "E" in
  apply bind_Ok in H; destruct H as (x & E & H).

Ltac inv_Ok H := injection H as H; subst.

(** ** Strings *)

Lemma length_toLowerCase (s : string) :
  String.length (toLowerCase s) = String.length s.
Proof.
  induction s as [| ch rest IH]; simpl; [reflexivity | now rewrite IH].
Qed.

Lemma size_toLowerCase (s : string) : size (toLowerCase s) = size s.
Proof. unfold size. now rewrite length_toLowerCase. Qed.

Lemma substr_Ok (s : string) (pos n : size_t) (r : string) :
  substr s pos n = Ok r ->
  pos <= size s /\
  r = String.substring (N.to_nat pos) (N.to_nat (N.min n (size s - pos))) s.
Proof.
  unfold substr. destruct (size s <? pos) eqn:E; intros H; [discriminate |].
  apply N.ltb_ge in E. inv_Ok H. split; [exact E | reflexivity].
Qed.

Lemma substr_in_range (s : string) (pos n : size_t) :
  pos <= size s ->
  substr s pos n =
    Ok (String.substring (N.to_nat pos) (N.to_nat (N.min n (size s - pos))) s).
Proof.
  intros H. unfold substr.
  destruct (size s <? pos) eqn:E; [apply N.ltb_lt in E; lia | reflexivity].
Qed.

(** ** The tokenizer: offsets and order of the tokens *)

Lemma chain_bounds (l : list Token.t) : forall lo hi, chain lo hi l -> lo <= hi.
Proof.
  induction l as [| t l IH]; simpl; intros lo hi H; [exact H |].
  destruct H as (H1 & H2 & H3). apply IH in H3. lia.
Qed.

Lemma chain_weaken (l : list Token.t) :
  forall lo hi hi', chain lo hi l -> hi <= hi' -> chain lo hi' l.
Proof.
  induction l as [| t l IH]; simpl; intros lo hi hi' H Hle; [lia |].
  destruct H as (H1 & H2 & H3). repeat split; try assumption.
  eapply IH; eassumption.
Qed.

Lemma chain_snoc (l : list Token.t) (t : Token.t) :
  forall lo hi,
    chain lo hi l -> hi <= Token.start t -> Token.start t < Token.end_ t ->
    chain lo (Token.end_ t) (l ++ [t]).
Proof.
  induction l as [| t' l IH]; simpl; intros lo hi H Hs Ht.
  - repeat split; lia.
  - destruct H as (H1 & H2 & H3). repeat split; try assumption.
    eapply IH; eassumption.
Qed.

Lemma chain_In (l : list Token.t) :
  forall lo hi t, chain lo hi l -> In t l ->
    lo <= Token.start t /\ Token.start t < Token.end_ t /\ Token.end_ t <= hi.
Proof.
  induction l as [| t' l IH]; simpl; intros lo hi t H Hin; [contradiction |].
  destruct H as (H1 & H2 & H3). destruct Hin as [-> | Hin].
  - apply chain_bounds in H3. lia.
  - destruct (IH _ _ _ H3 Hin) as (? & ? & ?). lia.
Qed.

Lemma push_pending_inv (sql : string) (toks toks' : list Token.t)
    (start cursor : size_t) :
  start <= cursor -> cursor <= size sql ->
  Forall (well_sliced sql) toks -> chain 0 start toks ->
  push_pending sql toks start cursor = Ok toks' ->
  Forall (well_sliced sql) toks' /\ chain 0 cursor toks'.
Proof.
  intros Hsc Hcs Hall Hch. unfold push_pending.
  destruct (start <? cursor) eqn:E; intros H.
  - apply N.ltb_lt in E. inv_bind H. inv_Ok H.
    apply substr_Ok in E0. destruct E0 as [_ ->]. split.
    + apply Forall_app. split; [exact Hall |].
      constructor; [| constructor].
      unfold well_sliced; simpl. repeat split; try lia.
      f_equal. lia.
    + apply (chain_snoc toks (Token.mk start cursor _) 0 start); simpl;
        [exact Hch | lia | lia].
  - inv_Ok H. split; [exact Hall |]. eapply chain_weaken; eassumption.
Qed.

Lemma tokenize_body_inv (sql : string) (cursor : size_t) (st st' : tokenizer) :
  cursor < size sql ->
  tokenizer_inv sql cursor st ->
  tokenize_body sql cursor st = Ok st' ->
  tokenizer_inv sql (cursor + 1) st'.
Proof.
  intros Hc [Hs Hall Hch] H. unfold tokenize_body in H.
  inv_bind H. rename x into ch.
  assert (Hkeep : tokenizer_inv sql (cursor + 1) st)
    by (constructor; [lia | assumption | assumption]).
  destruct (commentType1 st).
  { destruct (ch =? newline)%char; inv_Ok H; [| exact Hkeep].
    constructor; simpl; [lia | assumption |].
    eapply chain_weaken; [exact Hch | lia]. }
  destruct (commentType2 st).
  { inv_bind H. destruct x; inv_Ok H; [| exact Hkeep].
    constructor; simpl; [lia | assumption |].
    eapply chain_weaken; [exact Hch | lia]. }
  destruct (negb (isalnum ch) && negb (ch =? "_")%char && negb (ch =? "@")%char);
    [| inv_Ok H; exact Hkeep].
  inv_bind H. rename x into toks.
  destruct (push_pending_inv _ _ _ _ _ Hs (N.lt_le_incl _ _ Hc) Hall Hch E0)
    as [Hall' Hch'].
  assert (Hskip : forall c1 c2,
             tokenizer_inv sql (cursor + 1) (mkTokenizer toks (cursor + 1) c1 c2)).
  { intros c1 c2. constructor; simpl; [lia | assumption |].
    eapply chain_weaken; [exact Hch' | lia]. }
  inv_bind H. destruct x; [inv_Ok H; apply Hskip |].
  inv_bind H. destruct x; [inv_Ok H; apply Hskip |].
  destruct (negb (isspace ch)); [| inv_Ok H; apply Hskip].
  inv_bind H. inv_Ok H. apply substr_Ok in E3. destruct E3 as [_ ->].
  constructor; simpl.
  - lia.
  - apply Forall_app. split; [exact Hall' |].
    constructor; [| constructor].
    unfold well_sliced; simpl. repeat split; try lia.
    f_equal. lia.
  - apply (chain_snoc toks (Token.mk cursor (cursor + 1) _) 0 cursor); simpl;
      [exact Hch' | lia | lia].
Qed.

Lemma tokenize_loop_inv (sql : string) (n : nat) :
  forall (cursor : size_t) (st st' : tokenizer),
    N.of_nat n + cursor = size sql ->
    tokenizer_inv sql cursor st ->
    tokenize_loop sql n cursor st = Ok st' ->
    tokenizer_inv sql (size sql) st'.
Proof.
  induction n as [| n IH]; intros cursor st st' Hn Hinv H; simpl in H.
  - inv_Ok H. replace (size sql) with cursor by lia. exact Hinv.
  - inv_bind H. apply (IH (cursor + 1) x st'); [lia | | exact H].
    apply (tokenize_body_inv sql cursor st x); [lia | exact Hinv | exact E].
Qed.

Lemma tokenize_chain (sql : string) (toks : list Token.t) :
  tokenize sql = Ok toks ->
  Forall (well_sliced sql) toks /\ chain 0 (size sql) toks.
Proof.
  unfold tokenize. intros H. inv_bind H.
  apply tokenize_loop_inv in E.
  - destruct E as [Hs Hall Hch].
    eapply push_pending_inv; try eassumption. lia.
  - unfold size. lia.
  - constructor; simpl; [lia | constructor | lia].
Qed.

(** ** Compiled patterns *)

Lemma index_Ok {A : Type} (v : list A) (i : size_t) (x : A) :
  index v i = Ok x <-> i < vsize v /\ nth_error v (N.to_nat i) = Some x.
Proof.
  unfold index, vsize. destruct (i <? N.of_nat (List.length v)) eqn:E.
  - apply N.ltb_lt in E. destruct (nth_error v (N.to_nat i)) as [y |]; split.
    + intros H. inv_Ok H. auto.
    + intros [_ H]. now inv_Ok H.
    + discriminate.
    + intros [_ H]. discriminate.
  - apply N.ltb_ge in E. split; [discriminate | intros [H _]; lia].
Qed.

Lemma index_in_bounds {A : Type} (v : list A) (i : size_t) :
  i < vsize v -> exists x, index v i = Ok x.
Proof.
  intros H. destruct (nth_error v (N.to_nat i)) as [x |] eqn:E.
  - exists x. apply index_Ok. auto.
  - apply nth_error_None in E. unfold vsize in H. lia.
Qed.

Lemma parseSearchPattern_Ok (pattern : string) (pat : list Block.t) :
  parseSearchPattern pattern = Ok pat <->
  exists toks first last,
    tokenize (toLowerCase pattern) = Ok toks /\ pat = map to_block toks /\
    index pat 0 = Ok first /\ Block.isVariable first = false /\
    index pat (vsize pat - 1) = Ok last /\ Block.isVariable last = false.
Proof.
  unfold parseSearchPattern. split.
  - intros H. inv_bind H. rename x into toks. inv_bind H. rename x into first.
    destruct (Block.isVariable first) eqn:Hf; [discriminate |].
    inv_bind H. rename x into last.
    destruct (Block.isVariable last) eqn:Hl; [discriminate |]. inv_Ok H.
    exists toks, first, last. repeat split; try assumption.
    apply index_Ok in E0. destruct E0 as [Hlt _].
    unfold sub_sz in E1. destruct (1 <=? vsize (map to_block toks)) eqn:Hle;
      [exact E1 | apply N.leb_gt in Hle; lia].
  - intros (toks & first & last & Ht & -> & Hf & Hfv & Hl & Hlv).
    rewrite Ht. simpl. rewrite Hf. simpl. rewrite Hfv.
    assert (Hlt : 0 < vsize (map to_block toks)) by (apply index_Ok in Hf; tauto).
    unfold sub_sz. destruct (1 <=? vsize (map to_block toks)) eqn:Hle;
      [| apply N.leb_gt in Hle; lia].
    rewrite Hl. simpl. now rewrite Hlv.
Qed.

Lemma parseSearchPattern_compiled (pattern : string) (pat : list Block.t) :
  parseSearchPattern pattern = Ok pat -> compiled pat.
Proof.
  intros H. apply parseSearchPattern_Ok in H.
  destruct H as (toks & first & last & _ & _ & Hf & Hfv & Hl & Hlv).
  constructor.
  - exists first. auto.
  - intros i b Hi Hb.
    destruct (N.eq_dec i (vsize pat - 1)) as [-> | Hne].
    + rewrite Hl in Hi. inv_Ok Hi. congruence.
    + apply index_Ok in Hi. lia.
Qed.

(** ** The matcher: the pattern is read inside its bounds *)

Lemma advance_cases (pat : list Block.t) (token : Token.t) (mc : size_t)
    (st : matcher) (mp : MatchedPattern.t) :
  mc <= vsize pat ->
  (mc = vsize pat /\
   advance pat token mc st mp
     = Ok (Return (MatchedPattern.with_end (Token.end_ token) mp)))
  \/ (mc < vsize pat /\ exists blk,
        index pat mc = Ok blk /\
        advance pat token mc st mp
          = Ok (Next (mkMatcher mc
                        (if Block.isVariable blk then Token.end_ token
                         else varStart st)
                        (nestStack st) mp))).
Proof.
  intros Hle. unfold advance. destruct (mc =? vsize pat) eqn:E.
  - apply N.eqb_eq in E. left. auto.
  - apply N.eqb_neq in E. right. split; [lia |].
    destruct (index_in_bounds pat mc) as [blk Hblk]; [lia |].
    exists blk. rewrite Hblk. auto.
Qed.

Section PatternBounds.
Variable sql : string.
Variable pat : list Block.t.
Hypothesis Hpat : compiled pat.

Lemma compiled_nonempty : 0 < vsize pat.
Proof.
  destruct (compiled_first pat Hpat) as (b & Hb & _).
  apply index_Ok in Hb. tauto.
Qed.

Lemma search_body_count (token : Token.t) (st : matcher) :
  matchCount st < vsize pat ->
  match search_body sql pat token st with
  | Ok (Next st') => matchCount st' < vsize pat
  | Ok (Return _) | Throw _ => True
  | Undefined | NoFuel => False
  end.
Proof.
  intros Hmc. unfold search_body.
  destruct (index_in_bounds pat _ Hmc) as [cur Hcur]. rewrite Hcur. simpl.
  destruct (Block.isVariable cur) eqn:Hvar.
  - pose proof (compiled_last pat Hpat _ _ Hcur Hvar) as Hnext.
    destruct (nestStack st) as [| top stack] eqn:Hstack; simpl.
    + destruct (index_in_bounds pat _ Hnext) as [nxt Hnxt]. rewrite Hnxt. simpl.
      destruct (Token.text token =? Block.text nxt)%string; simpl; [| exact Hmc].
      unfold substr. destruct (size sql <? varStart st); simpl; [exact I |].
      match goal with |- context [advance pat token ?mc st ?mp] =>
        destruct (advance_cases pat token mc st mp)
          as [[_ ->] | [Hlt (blk & _ & ->)]]; [lia | exact I | exact Hlt]
      end.
    + exact Hmc.
  - destruct (Token.text token =? Block.text cur)%string; simpl.
    + match goal with |- context [advance pat token ?mc st ?mp] =>
        destruct (advance_cases pat token mc st mp)
          as [[_ ->] | [Hlt (blk & _ & ->)]]; [lia | exact I | exact Hlt]
      end.
    + exact compiled_nonempty.
Qed.

Lemma reaches_count (done : list Token.t) (st : matcher) :
  reaches sql pat done st -> matchCount st < vsize pat.
Proof.
  induction 1 as [| done token st st' _ IH Hbody].
  - exact compiled_nonempty.
  - pose proof (search_body_count token st IH) as H.
    rewrite Hbody in H. exact H.
Qed.

Lemma search_loop_no_Undefined (toks : list Token.t) :
  forall st, matchCount st < vsize pat ->
    no_Undefined (search_loop sql pat toks st).
Proof.
  induction toks as [| token rest IH]; intros st Hmc; simpl; [exact I |].
  pose proof (search_body_count token st Hmc) as H.
  destruct (search_body sql pat token st) as [[mp | st'] | e | |]; simpl;
    try exact I; try contradiction.
  apply IH. exact H.
Qed.
End PatternBounds.

(** ** The matcher: offsets and captured values *)

Lemma Forall_assign (P : string * string -> Prop) (k v : string) (m : StringMap.t) :
  Forall P m -> P (k, v) -> Forall P (StringMap.assign k v m).
Proof.
  intros Hm Hkv. induction Hm as [| [k' v'] m Hx Hm IH]; simpl.
  - constructor; [exact Hkv | constructor].
  - destruct (String.compare k k'); constructor; auto.
Qed.

Section Captures.
Variable sql : string.
Variable pat : list Block.t.
Variable toks : list Token.t.
Hypothesis Hpat : compiled pat.

Lemma variable_not_first (b : Block.t) (mc : size_t) :
  index pat mc = Ok b -> Block.isVariable b = true -> mc <> 0.
Proof.
  intros Hb Hv ->. destruct (compiled_first pat Hpat) as (b0 & Hb0 & Hv0).
  congruence.
Qed.

Lemma advance_inv (token : Token.t) (mc lo : size_t) (st : matcher)
    (m : MatchedPattern.t) :
  mc <= vsize pat -> mc <> 0 ->
  In token toks -> lo <= Token.start token -> Token.start token < Token.end_ token ->
  varStart st <= lo ->
  (exists t, In t toks /\ Token.start t <= Token.start token /\
             MatchedPattern.start m = Token.start t) ->
  Forall (is_capture sql toks pat) (MatchedPattern.variableToValue m) ->
  exists r, advance pat token mc st m = Ok r /\ flow_inv sql pat toks (Token.end_ token) r.
Proof.
  intros Hle Hnz Hin Hlo Htok Hvs (t & Ht & Htle & Hts) Hbound.
  destruct (advance_cases pat token mc st m Hle)
    as [[_ ->] | [Hlt (blk & Hblk & ->)]]; eexists; (split; [reflexivity |]); simpl.
  - split; [| exact Hbound]. exists t, token. simpl. auto.
  - constructor; simpl.
    + exact Hlt.
    + destruct (Block.isVariable blk); lia.
    + intros b Hb Hv. rewrite Hblk in Hb. inv_Ok Hb. rewrite Hv.
      exists token. auto.
    + intros _. exists t. repeat split; [exact Ht | lia | exact Hts].
    + exact Hbound.
Qed.

Lemma search_body_inv (token : Token.t) (lo : N) (st : matcher) :
  In token toks ->
  lo <= Token.start token -> Token.start token < Token.end_ token ->
  Token.end_ token <= size sql ->
  matcher_inv sql pat toks lo st ->
  exists r, search_body sql pat token st = Ok r /\ flow_inv sql pat toks (Token.end_ token) r.
Proof.
  intros Hin Hlo Htok Hhi [Hmc Hvs Hopen Hfirst Hbound].
  assert (Hstay : forall stack,
             matcher_inv sql pat toks (Token.end_ token)
               (mkMatcher (matchCount st) (varStart st) stack (matchedPattern st))).
  { intros stack. constructor; simpl; try assumption; [lia |].
    intros Hnz. destruct (Hfirst Hnz) as (t & ? & ? & ?).
    exists t. repeat split; [assumption | lia | assumption]. }
  unfold search_body.
  destruct (index_in_bounds pat _ Hmc) as [cur Hcur]. rewrite Hcur. simpl.
  destruct (Block.isVariable cur) eqn:Hvar.
  - pose proof (compiled_last pat Hpat _ _ Hcur Hvar) as Hnext.
    pose proof (variable_not_first _ _ Hcur Hvar) as Hnz.
    destruct (nestStack st) as [| top stack] eqn:Hstack; simpl.
    + destruct (index_in_bounds pat _ Hnext) as [nxt Hnxt]. rewrite Hnxt. simpl.
      destruct (Token.text token =? Block.text nxt)%string eqn:Hterm; simpl;
        [| eexists; split; [reflexivity | apply Hstay]].
      apply String.eqb_eq in Hterm.
      rewrite substr_in_range by lia. simpl.
      destruct (Hopen cur Hcur Hvar) as (opening & Hopening & Hend).
      destruct (Hfirst Hnz) as (t & Ht & Htlo & Hts).
      apply advance_inv with (lo := lo); simpl; try assumption; try lia.
      * exists t. repeat split; [exact Ht | lia | exact Hts].
      * apply Forall_assign; [exact Hbound |].
        exists (matchCount st), cur, nxt, opening, token. simpl.
        repeat split; try assumption; try lia.
        rewrite Hend. f_equal. unfold sub_sz.
        destruct (varStart st <=? Token.start token) eqn:Hw;
          [lia | apply N.leb_gt in Hw; lia].
    + eexists; split; [reflexivity | apply Hstay].
  - destruct (Token.text token =? Block.text cur)%string eqn:Hlit; simpl.
    + apply advance_inv with (lo := lo); try assumption; try lia.
      * destruct (matchCount st =? 0) eqn:Hz.
        -- exists token. simpl. repeat split; [exact Hin | lia].
        -- apply N.eqb_neq in Hz. destruct (Hfirst Hz) as (t & Ht & Htlo & Hts).
           exists t. repeat split; [exact Ht | lia | exact Hts].
      * destruct (matchCount st =? 0); simpl; exact Hbound.
    + eexists; split; [reflexivity |]. constructor; simpl.
      * apply compiled_nonempty; exact Hpat.
      * lia.
      * intros b Hb Hv. exfalso. now apply (variable_not_first b 0).
      * intros Hnz. now contradiction Hnz.
      * exact Hbound.
Qed.

Lemma search_loop_inv (rest : list Token.t) :
  forall (lo : N) (st : matcher),
    chain lo (size sql) rest -> incl rest toks -> matcher_inv sql pat toks lo st ->
    exists m, search_loop sql pat rest st = Ok m /\
              (MatchedPattern.start m = npos \/ found sql toks pat m).
Proof.
  induction rest as [| token rest IH]; intros lo st Hch Hincl Hinv; simpl.
  - eexists; split; [reflexivity |]. left. reflexivity.
  - destruct Hch as (Hlo & Htok & Hch).
    assert (Hin : In token toks) by (apply Hincl; now left).
    pose proof (chain_bounds _ _ _ Hch) as Hhi.
    destruct (search_body_inv token lo st Hin Hlo Htok Hhi Hinv)
      as ([m | st'] & -> & Hr); simpl.
    + exists m. split; [reflexivity |]. right. exact Hr.
    + apply (IH (Token.end_ token)); [exact Hch | | exact Hr].
      intros t Ht. apply Hincl. now right.
Qed.

Lemma matcher_inv_start :
  matcher_inv sql pat toks 0 (mkMatcher 0 0 [] MatchedPattern.init).
Proof.
  constructor; simpl.
  - apply compiled_nonempty; exact Hpat.
  - lia.
  - intros b Hb Hv. exfalso. now apply (variable_not_first b 0).
  - intros Hnz. now contradiction Hnz.
  - constructor.
Qed.
End Captures.

Lemma search_found (sql : string) (pat : list Block.t) (toks : list Token.t) :
  compiled pat ->
  tokenize (toLowerCase sql) = Ok toks ->
  exists m, search sql pat = Ok m /\
            (MatchedPattern.start m = npos \/ found sql toks pat m).
Proof.
  intros Hpat Htoks. unfold search. rewrite Htoks. simpl.
  apply tokenize_chain in Htoks. destruct Htoks as [_ Hch].
  rewrite size_toLowerCase in Hch.
  apply (search_loop_inv sql pat toks Hpat toks 0);
    [exact Hch | apply incl_refl | now apply matcher_inv_start].
Qed.

(** ** The matcher: only the lower-cased subject decides the match *)







(** ** The map of the bindings *)

Lemma compare_refl (k : string) : String.compare k k = Eq.
Proof. now apply String_as_OT.cmp_eq. Qed.

Lemma compare_Lt_trans (a b c : string) :
  String.compare a b = Lt -> String.compare b c = Lt -> String.compare a c = Lt.
Proof.
  intros H1 H2. apply String_as_OT.cmp_lt in H1, H2. apply String_as_OT.cmp_lt.
  eapply String_as_OT.lt_trans; eassumption.
Qed.

Lemma compare_Gt_Lt (a b : string) :
  String.compare a b = Gt -> String.compare b a = Lt.
Proof.
  intros H. rewrite String.compare_antisym, H. reflexivity.
Qed.

Lemma find_assign (k v k' : string) (m : StringMap.t) :
  StringMap.find k' (StringMap.assign k v m)
  = if (k' =? k)%string then Some v else StringMap.find k' m.
Proof.
  induction m as [| [k1 v1] m IH]; simpl; [reflexivity |].
  destruct (String.compare k k1) eqn:E; simpl.
  - apply String.compare_eq_iff in E. subst k1.
    destruct (k' =? k)%string; reflexivity.
  - reflexivity.
  - rewrite IH. destruct (k' =? k1)%string eqn:E1; [| reflexivity].
    apply String.eqb_eq in E1. subst k1.
    destruct (k' =? k)%string eqn:E2; [| reflexivity].
    apply String.eqb_eq in E2. subst k'. rewrite compare_refl in E. discriminate.
Qed.

Lemma keys_assign_In (k v k' : string) (m : StringMap.t) :
  In k' (StringMap.keys (StringMap.assign k v m)) ->
  k' = k \/ In k' (StringMap.keys m).
Proof.
  induction m as [| [k1 v1] m IH]; simpl.
  - intros [H | []]. now left.
  - destruct (String.compare k k1); simpl; intros [H | H]; auto.
    destruct (IH H); auto.
Qed.

Lemma ascending_assign (k v : string) (m : StringMap.t) :
  ascending m -> ascending (StringMap.assign k v m).
Proof.
  induction m as [| [k1 v1] m IH]; simpl.
  - intros _. split; [intros k' [] | exact I].
  - intros [Hlow Hm]. destruct (String.compare k k1) eqn:E; simpl.
    + apply String.compare_eq_iff in E. subst k1. split; assumption.
    + split; [| split; assumption].
      intros k' [<- | Hk']; [exact E |].
      apply compare_Lt_trans with k1; [exact E | now apply Hlow].
    + split; [| now apply IH].
      intros k' Hk'. apply keys_assign_In in Hk'. destruct Hk' as [-> | Hk'].
      * now apply compare_Gt_Lt.
      * now apply Hlow.
Qed.

Lemma find_below (k : string) (m : StringMap.t) :
  (forall k', In k' (StringMap.keys m) -> String.compare k k' = Lt) ->
  StringMap.find k m = None.
Proof.
  induction m as [| [k1 v1] m IH]; simpl; intros H; [reflexivity |].
  destruct (k =? k1)%string eqn:E.
  - apply String.eqb_eq in E. subst k1.
    specialize (H k (or_introl eq_refl)). rewrite compare_refl in H. discriminate.
  - apply IH. intros k' Hk'. apply H. now right.
Qed.

Lemma ascending_tail_find (k v : string) (m : StringMap.t) :
  ascending ((k, v) :: m) -> StringMap.find k m = None.
Proof. intros [Hlow _]. now apply find_below. Qed.

(** Two maps with the same content are the same list. *)
Lemma ascending_ext (m1 : StringMap.t) :
  forall m2, ascending m1 -> ascending m2 ->
    (forall k, StringMap.find k m1 = StringMap.find k m2) -> m1 = m2.
Proof.
  induction m1 as [| [k1 v1] m1 IH]; intros [| [k2 v2] m2] H1 H2 Hfind.
  - reflexivity.
  - specialize (Hfind k2). simpl in Hfind. rewrite String.eqb_refl in Hfind.
    discriminate.
  - specialize (Hfind k1). simpl in Hfind. rewrite String.eqb_refl in Hfind.
    discriminate.
  - assert (Hk : k1 = k2).
    { destruct (String.compare k1 k2) eqn:E.
      - now apply String.compare_eq_iff.
      - pose proof (Hfind k1) as H. simpl in H. rewrite String.eqb_refl in H.
        destruct (k1 =? k2)%string eqn:E2; [now apply String.eqb_eq |].
        rewrite find_below in H; [discriminate |].
        destruct H2 as [Hlow _]. intros k' Hk'.
        apply compare_Lt_trans with k2; [exact E | now apply Hlow].
      - apply compare_Gt_Lt in E.
        pose proof (Hfind k2) as H. simpl in H. rewrite String.eqb_refl in H.
        destruct (k2 =? k1)%string eqn:E2; [symmetry; now apply String.eqb_eq |].
        rewrite find_below in H; [discriminate |].
        destruct H1 as [Hlow _]. intros k' Hk'.
        apply compare_Lt_trans with k1; [exact E | now apply Hlow]. }
    subst k2.
    pose proof (Hfind k1) as Hv. simpl in Hv. rewrite String.eqb_refl in Hv.
    injection Hv as ->.
    f_equal. apply IH; [apply H1 | apply H2 |].
    intros k. destruct (k =? k1)%string eqn:E.
    + apply String.eqb_eq in E. subst k.
      rewrite (ascending_tail_find _ _ _ H1), (ascending_tail_find _ _ _ H2).
      reflexivity.
    + specialize (Hfind k). simpl in Hfind. rewrite E in Hfind. exact Hfind.
Qed.

Lemma ascending_assign_all (l : list (string * string)) :
  forall m, ascending m -> ascending (assign_all l m).
Proof.
  induction l as [| kv l IH]; intros m Hm; simpl; [exact Hm |].
  apply IH. now apply ascending_assign.
Qed.

Lemma find_assign_all_ext (l : list (string * string)) :
  forall m m',
    (forall k, StringMap.find k m = StringMap.find k m') ->
    forall k, StringMap.find k (assign_all l m) = StringMap.find k (assign_all l m').
Proof.
  induction l as [| kv l IH]; intros m m' H; simpl; [exact H |].
  apply IH. intros k. rewrite !find_assign. now rewrite H.
Qed.

Lemma find_assign_all_perm (l l' : list (string * string)) :
  Permutation l l' -> NoDup (map fst l) ->
  forall m k, StringMap.find k (assign_all l m) = StringMap.find k (assign_all l' m).
Proof.
  induction 1 as [| kv l l' Hperm IH | kv1 kv2 l | l l' l'' H1 IH1 H2 IH2];
    intros Hnd m k.
  - reflexivity.
  - simpl. apply IH. now inversion Hnd.
  - simpl. apply find_assign_all_ext. intros k0. rewrite !find_assign.
    destruct (k0 =? fst kv1)%string eqn:E1; [| reflexivity].
    destruct (k0 =? fst kv2)%string eqn:E2; [| reflexivity].
    apply String.eqb_eq in E1, E2.
    simpl in Hnd. inversion Hnd as [| ? ? Hnotin _]. subst.
    exfalso. apply Hnotin. left. congruence.
  - rewrite IH1 by exact Hnd. apply IH2.
    apply Permutation_NoDup with (l := map fst l); [| exact Hnd].
    now apply Permutation_map.
Qed.

Lemma assign_all_perm (l l' : list (string * string)) :
  NoDup (map fst l) -> Permutation l l' -> assign_all l [] = assign_all l' [].
Proof.
  intros Hnd Hperm. apply ascending_ext.
  - now apply ascending_assign_all.
  - now apply ascending_assign_all.
  - intros k. now apply find_assign_all_perm.
Qed.

(** The map that [search] fills is always in ascending order. *)
Lemma advance_ascending (pat : list Block.t) (token : Token.t) (mc : size_t)
    (st : matcher) (m : MatchedPattern.t) (r : flow) :
  ascending (MatchedPattern.variableToValue m) ->
  advance pat token mc st m = Ok r ->
  match r with
  | Return m' => ascending (MatchedPattern.variableToValue m')
  | Next st' => ascending (MatchedPattern.variableToValue (matchedPattern st'))
  end.
Proof.
  intros Hm. unfold advance. destruct (mc =? vsize pat).
  - intros H. inv_Ok H. exact Hm.
  - intros H. inv_bind H. inv_Ok H. exact Hm.
Qed.

Lemma search_body_ascending (sql : string) (pat : list Block.t)
    (token : Token.t) (st : matcher) (r : flow) :
  ascending (MatchedPattern.variableToValue (matchedPattern st)) ->
  search_body sql pat token st = Ok r ->
  match r with
  | Return m' => ascending (MatchedPattern.variableToValue m')
  | Next st' => ascending (MatchedPattern.variableToValue (matchedPattern st'))
  end.
Proof.
  intros Hm H. unfold search_body in H. inv_bind H. rename x into cur.
  destruct (Block.isVariable cur).
  - inv_bind H. destruct x.
    + inv_bind H. apply advance_ascending in H; [exact H |].
      simpl. now apply ascending_assign.
    + inv_Ok H. exact Hm.
  - destruct (Token.text token =? Block.text cur)%string.
    + apply advance_ascending in H; [exact H |].
      destruct (matchCount st =? 0); exact Hm.
    + inv_Ok H. exact Hm.
Qed.

Lemma search_loop_ascending (sql : string) (pat : list Block.t)
    (toks : list Token.t) :
  forall st m,
    ascending (MatchedPattern.variableToValue (matchedPattern st)) ->
    search_loop sql pat toks st = Ok m ->
    ascending (MatchedPattern.variableToValue m).
Proof.
  induction toks as [| token rest IH]; intros st m Hst H; simpl in H.
  - inv_Ok H. exact Hst.
  - inv_bind H. pose proof (search_body_ascending _ _ _ _ _ Hst E) as Hr.
    destruct x as [m' | st']; [inv_Ok H; exact Hr | eapply IH; eassumption].
Qed.

Lemma search_ascending (sql : string) (pat : list Block.t) (m : MatchedPattern.t) :
  search sql pat = Ok m -> ascending (MatchedPattern.variableToValue m).
Proof.
  unfold search. intros H. inv_bind H.
  eapply search_loop_ascending; [| exact H]. exact I.
Qed.

Lemma ascending_NoDup (m : StringMap.t) : ascending m -> NoDup (StringMap.keys m).
Proof.
  induction m as [| [k v] m IH]; simpl; intros H; constructor.
  - intros Hin. destruct H as [Hlow _]. apply Hlow in Hin.
    rewrite compare_refl in Hin. discriminate.
  - apply IH. apply H.
Qed.

Lemma assign_above (k v : string) (acc : StringMap.t) :
  (forall k', In k' (StringMap.keys acc) -> String.compare k' k = Lt) ->
  StringMap.assign k v acc = acc ++ [(k, v)].
Proof.
  induction acc as [| [k1 v1] acc IH]; simpl; intros H; [reflexivity |].
  assert (E : String.compare k1 k = Lt) by (apply H; now left).
  rewrite String.compare_antisym, E. simpl. f_equal.
  apply IH. intros k' Hk'. apply H. now right.
Qed.

Lemma assign_all_ascending (m : StringMap.t) :
  forall acc,
    ascending m ->
    (forall k k', In k (StringMap.keys acc) -> In k' (StringMap.keys m) ->
                  String.compare k k' = Lt) ->
    assign_all m acc = acc ++ m.
Proof.
  induction m as [| [k v] m IH]; intros acc Hm Hacc; simpl.
  - now rewrite app_nil_r.
  - rewrite assign_above by (intros k' Hk'; apply Hacc; simpl; auto).
    destruct Hm as [Hlow Hm]. rewrite IH; [now rewrite <- app_assoc | exact Hm |].
    intros k1 k2 H1 H2. unfold StringMap.keys in H1.
    rewrite map_app in H1. apply in_app_or in H1. destruct H1 as [H1 | [<- | []]].
    + apply Hacc; simpl; auto.
    + now apply Hlow.
Qed.

(** ** The substitutions of a template *)

Lemma prefix_nil (s : string) : String.prefix EmptyString s = true.
Proof. destruct s; reflexivity. Qed.

Lemma prefix_cons (a b : ascii) (s1 s2 : string) :
  String.prefix (String a s1) (String b s2) = (a =? b)%char && String.prefix s1 s2.
Proof.
  simpl. destruct (ascii_dec a b) as [-> | Hne].
  - now rewrite Ascii.eqb_refl.
  - apply Ascii.eqb_neq in Hne. now rewrite Hne.
Qed.

Lemma prefix_app (k r : string) : String.prefix k (k ++ r) = true.
Proof.
  induction k as [| a k IH]; [apply prefix_nil |].
  change (String a k ++ r)%string with (String a (k ++ r)).
  now rewrite prefix_cons, Ascii.eqb_refl.
Qed.

Lemma prefix_app_cases (k' : string) :
  forall k r, String.prefix k (k' ++ r) = true ->
              String.prefix k k' = true \/ String.prefix k' k = true.
Proof.
  induction k' as [| b k' IH]; intros k r H.
  - right. apply prefix_nil.
  - destruct k as [| a k]; [left; reflexivity |].
    change (String b k' ++ r)%string with (String b (k' ++ r)) in H.
    rewrite prefix_cons in H. apply andb_prop in H. destruct H as [Hab H].
    rewrite !prefix_cons, Hab. rewrite Ascii.eqb_sym in Hab. rewrite Hab. simpl.
    now apply IH in H.
Qed.

Lemma prefix_split (k : string) :
  forall t, String.prefix k t = true -> exists rest, t = (k ++ rest)%string.
Proof.
  induction k as [| a k IH]; intros t H; [now exists t |].
  destruct t as [| b t]; [discriminate |].
  rewrite prefix_cons in H. apply andb_prop in H. destruct H as [Hab H].
  apply Ascii.eqb_eq in Hab. subst b. destruct (IH t H) as [rest ->].
  now exists rest.
Qed.

Lemma replaceAll_from_scan (ch : ascii) (rest search replace : string) :
  replaceAll_from 0 (String ch rest) search replace
  = if String.prefix search (String ch rest)
    then (replace ++ replaceAll_from (String.length search - 1) rest search replace)%string
    else String ch (replaceAll_from 0 rest search replace).
Proof. reflexivity. Qed.

Lemma replaceAll_from_skip (s : string) (search replace : string) :
  forall rest,
    replaceAll_from (String.length s) (s ++ rest) search replace
    = replaceAll_from 0 rest search replace.
Proof. induction s as [| c s IH]; intros rest; [reflexivity | apply IH]. Qed.

Lemma replaceAll_from_match (k rest v : string) :
  k <> EmptyString ->
  replaceAll_from 0 (k ++ rest) k v = (v ++ replaceAll_from 0 rest k v)%string.
Proof.
  destruct k as [| a k]; [congruence |]. intros _.
  change (String a k ++ rest)%string with (String a (k ++ rest)).
  rewrite replaceAll_from_scan.
  change (String a (k ++ rest)) with (String a k ++ rest)%string.
  rewrite prefix_app.
  replace (String.length (String a k) - 1)%nat with (String.length k)
    by (simpl; lia).
  now rewrite replaceAll_from_skip.
Qed.

Lemma name_form_inv (k : string) :
  name_form k = true -> exists body, k = String "@"%char body /\ no_at body = true.
Proof.
  destruct k as [| c body]; [discriminate |]. simpl. intros H.
  apply andb_prop in H. destruct H as [Hc Hb]. apply Ascii.eqb_eq in Hc. subst c.
  eauto.
Qed.

Lemma replaceAll_from_body (body : string) (k v : string) :
  no_at body = true -> name_form k = true ->
  forall rest,
    replaceAll_from 0 (body ++ rest) k v = (body ++ replaceAll_from 0 rest k v)%string.
Proof.
  intros Hbody Hk rest. apply name_form_inv in Hk. destruct Hk as (kb & -> & _).
  induction body as [| c body IH]; [reflexivity |].
  simpl in Hbody. apply andb_prop in Hbody. destruct Hbody as [Hc Hbody].
  apply negb_true_iff in Hc.
  change (String c body ++ rest)%string with (String c (body ++ rest)).
  rewrite replaceAll_from_scan, prefix_cons.
  rewrite Ascii.eqb_sym, Hc. simpl. now rewrite IH.
Qed.

Lemma replaceAll_name (s k v : string) :
  name_form k = true -> replaceAll s k v = replaceAll_from 0 s k v.
Proof. destruct k; [discriminate | reflexivity]. Qed.

Lemma render_app (l1 l2 : list item) :
  render (l1 ++ l2) = (render l1 ++ render l2)%string.
Proof.
  induction l1 as [| [c | k] l1 IH]; simpl; [reflexivity | now rewrite IH |].
  rewrite IH. clear. induction k as [| a k IHk]; simpl; [reflexivity | now rewrite IHk].
Qed.

Lemma append_nil_r (s : string) : (s ++ EmptyString)%string = s.
Proof. induction s as [| c s IH]; simpl; [reflexivity | now rewrite IH]. Qed.

Lemma render_lits (v : string) : render (lits v) = v.
Proof. induction v as [| c v IH]; simpl; [reflexivity | now rewrite IH]. Qed.

Lemma prefix_free_spec (names : list string) (k1 k2 : string) :
  prefix_free names = true -> In k1 names -> In k2 names -> k1 <> k2 ->
  String.prefix k1 k2 = false.
Proof.
  unfold prefix_free. intros H H1 H2 Hne.
  rewrite forallb_forall in H. specialize (H k1 H1).
  rewrite forallb_forall in H. specialize (H k2 H2).
  apply orb_prop in H. destruct H as [H | H].
  - apply String.eqb_eq in H. contradiction.
  - now apply negb_true_iff in H.
Qed.

Section Separable.
Variable names : list string.
Hypothesis Hnames : forall k, In k names -> name_form k = true.
Hypothesis Hfree : prefix_free names = true.

Lemma replaceAll_from_render (k v : string) (l : list item) :
  In k names -> items_of names l ->
  replaceAll_from 0 (render l) k v = render (subst_items l (k, v)).
Proof.
  intros Hk Hl. pose proof (Hnames k Hk) as Hform.
  induction Hl as [| [c | k'] l Hit Hl IH]; [reflexivity | |].
  - destruct (name_form_inv k Hform) as (kb & Hkb & _).
    change (render (Lit c :: l)) with (String c (render l)).
    rewrite replaceAll_from_scan. rewrite Hkb at 1. rewrite prefix_cons.
    apply Ascii.eqb_neq in Hit. rewrite Ascii.eqb_sym, Hit. simpl. now rewrite IH.
  - change (render (Var k' :: l)) with (k' ++ render l)%string.
    change (subst_items (Var k' :: l) (k, v))
      with (subst_item k v (Var k') ++ subst_items l (k, v)).
    rewrite render_app, <- IH. simpl.
    destruct (k' =? k)%string eqn:E.
    + apply String.eqb_eq in E. subst k'. rewrite render_lits.
      apply replaceAll_from_match. intros ->. discriminate.
    + apply String.eqb_neq in E.
      assert (Hno : String.prefix k (k' ++ render l) = false).
      { destruct (String.prefix k (k' ++ render l)) eqn:Hp; [| reflexivity].
        apply prefix_app_cases in Hp. destruct Hp as [Hp | Hp].
        - rewrite (prefix_free_spec names k k') in Hp; auto.
        - rewrite (prefix_free_spec names k' k) in Hp; auto. }
      destruct (name_form_inv k' (Hnames k' Hit)) as (body & -> & Hbody).
      change (String "@" body ++ render l)%string
        with (String "@"%char (body ++ render l)) in *.
      rewrite replaceAll_from_scan, Hno.
      rewrite (replaceAll_from_body body k v Hbody Hform).
      cbn [render]. now rewrite append_nil_r.
Qed.

Lemma items_of_lits (v : string) : no_at v = true -> items_of names (lits v).
Proof.
  induction v as [| c v IH]; simpl; intros H; constructor.
  - apply andb_prop in H. destruct H as [H _]. apply negb_true_iff in H.
    now apply Ascii.eqb_neq.
  - apply IH. apply andb_prop in H. tauto.
Qed.

Lemma items_of_subst (l : list item) (kv : string * string) :
  no_at (snd kv) = true -> items_of names l -> items_of names (subst_items l kv).
Proof.
  intros Hv Hl. induction Hl as [| it l Hit Hl IH]; [constructor |].
  change (subst_items (it :: l) kv)
    with (subst_item (fst kv) (snd kv) it ++ subst_items l kv).
  apply Forall_app. split; [| exact IH].
  destruct it as [c | k']; simpl.
  - constructor; [exact Hit | constructor].
  - destruct (k' =? fst kv)%string; [now apply items_of_lits |].
    constructor; [exact Hit | constructor].
Qed.

Lemma items_of_fold (bs : list (string * string)) :
  (forall kv, In kv bs -> no_at (snd kv) = true) ->
  forall l, items_of names l -> items_of names (fold_left subst_items bs l).
Proof.
  induction bs as [| kv bs IH]; intros Hbs l Hl; [exact Hl |].
  simpl. apply IH; [intros kv' Hin; apply Hbs; now right |].
  apply items_of_subst; [apply Hbs; now left | exact Hl].
Qed.

Lemma fold_render (bs : list (string * string)) :
  (forall kv, In kv bs -> In (fst kv) names /\ no_at (snd kv) = true) ->
  forall l, items_of names l ->
    fold_left (fun r kv => replaceAll r (fst kv) (snd kv)) bs (render l)
    = render (fold_left subst_items bs l).
Proof.
  induction bs as [| kv bs IH]; intros Hbs l Hl; [reflexivity |].
  destruct (Hbs kv (or_introl eq_refl)) as [Hk Hv]. simpl.
  rewrite replaceAll_name by (now apply Hnames).
  rewrite (replaceAll_from_render (fst kv) (snd kv) l Hk Hl).
  replace (fst kv, snd kv) with kv by (now destruct kv).
  apply IH; [intros kv' Hin; apply Hbs; now right | now apply items_of_subst].
Qed.

Lemma covered_drop (k : string) :
  forall rest, covered names (k ++ rest) = true -> covered names rest = true.
Proof.
  induction k as [| a k IH]; intros rest H; [exact H |].
  simpl in H. apply andb_prop in H. destruct H as [_ H]. now apply IH.
Qed.

Lemma covered_items (n : nat) :
  forall t, (String.length t <= n)%nat -> covered names t = true ->
            exists l, items_of names l /\ render l = t.
Proof.
  induction n as [| n IH]; intros t Hlen Hcov.
  - destruct t; [| simpl in Hlen; lia]. exists []. split; [constructor | reflexivity].
  - destruct t as [| c rest]; [exists []; split; [constructor | reflexivity] |].
    pose proof Hcov as Hcov0.
    cbn [covered] in Hcov. apply andb_prop in Hcov. destruct Hcov as [Hhead Hrest].
    destruct (c =? "@")%char eqn:Hc.
    + apply existsb_exists in Hhead. destruct Hhead as (k & Hk & Hpre).
      destruct (prefix_split _ _ Hpre) as [rest' Heq].
      destruct (name_form_inv k (Hnames k Hk)) as (body & Hkb & _).
      rewrite Heq in Hcov0. apply covered_drop in Hcov0.
      destruct (IH rest') as (l & Hl & Hrender).
      * assert (Hsum : String.length (String c rest)
                       = (String.length k + String.length rest')%nat).
        { rewrite Heq. clear. induction k as [| a k IHk]; simpl; [reflexivity | now rewrite IHk]. }
        rewrite Hkb in Hsum. simpl in Hsum, Hlen. lia.
      * exact Hcov0.
      * exists (Var k :: l). split; [constructor; assumption |].
        simpl. now rewrite Hrender, Heq.
    + destruct (IH rest) as (l & Hl & Hrender); [simpl in Hlen; lia | exact Hrest |].
      exists (Lit c :: l). split.
      * constructor; [now apply Ascii.eqb_neq | exact Hl].
      * simpl. now rewrite Hrender.
Qed.
End Separable.

Lemma subst_items_lits (v : string) (kv : string * string) :
  subst_items (lits v) kv = lits v.
Proof.
  unfold subst_items. induction v as [| c v IH]; simpl; [reflexivity | now rewrite IH].
Qed.

Lemma subst_items_app (l1 l2 : list item) (kv : string * string) :
  subst_items (l1 ++ l2) kv = subst_items l1 kv ++ subst_items l2 kv.
Proof. unfold subst_items. apply flat_map_app. Qed.

Lemma subst_items_comm (l : list item) (kv1 kv2 : string * string) :
  fst kv1 <> fst kv2 ->
  subst_items (subst_items l kv1) kv2 = subst_items (subst_items l kv2) kv1.
Proof.
  intros Hne. induction l as [| it l IH]; [reflexivity |].
  change (subst_items (it :: l) kv1)
    with (subst_item (fst kv1) (snd kv1) it ++ subst_items l kv1).
  change (subst_items (it :: l) kv2)
    with (subst_item (fst kv2) (snd kv2) it ++ subst_items l kv2).
  rewrite !subst_items_app, IH. f_equal.
  destruct it as [c | k]; [reflexivity |]. simpl.
  destruct (k =? fst kv1)%string eqn:E1; destruct (k =? fst kv2)%string eqn:E2.
  - apply String.eqb_eq in E1, E2. congruence.
  - rewrite subst_items_lits. unfold subst_items. simpl. rewrite E1.
    now rewrite app_nil_r.
  - rewrite subst_items_lits. unfold subst_items. simpl. rewrite E2.
    now rewrite app_nil_r.
  - unfold subst_items. simpl. now rewrite E1, E2.
Qed.

Lemma fold_subst_items_perm (bs bs' : list (string * string)) :
  Permutation bs bs' -> NoDup (map fst bs) ->
  forall l, fold_left subst_items bs l = fold_left subst_items bs' l.
Proof.
  induction 1 as [| kv bs bs' Hperm IH | kv1 kv2 bs | bs bs' bs'' H1 IH1 H2 IH2];
    intros Hnd l.
  - reflexivity.
  - simpl. apply IH. now inversion Hnd.
  - simpl. f_equal. apply subst_items_comm.
    simpl in Hnd. inversion Hnd as [| ? ? Hnotin _]. subst.
    intros Heq. apply Hnotin. left. congruence.
  - rewrite IH1 by exact Hnd. apply IH2.
    apply Permutation_NoDup with (l := map fst bs); [| exact Hnd].
    now apply Permutation_map.
Qed.

Lemma In_Var_subst (k' : string) (l : list item) (kv : string * string) :
  In (Var k') (subst_items l kv) -> In (Var k') l /\ k' <> fst kv.
Proof.
  unfold subst_items. intros H. apply in_flat_map in H.
  destruct H as ([c | k0] & Hin & H); simpl in H.
  - destruct H as [H | []]. discriminate.
  - destruct (k0 =? fst kv)%string eqn:E.
    + exfalso. clear - H. induction (snd kv) as [| c v IH]; simpl in H; [contradiction |].
      destruct H as [H | H]; [discriminate | auto].
    + destruct H as [H | []]. injection H as ->. apply String.eqb_neq in E. auto.
Qed.

Lemma In_Var_fold (k' : string) (bs : list (string * string)) :
  forall l, In (Var k') (fold_left subst_items bs l) ->
            In (Var k') l /\ ~ In k' (map fst bs).
Proof.
  induction bs as [| kv bs IH]; intros l H; [auto |].
  simpl in H. apply IH in H. destruct H as [H Hnot].
  apply In_Var_subst in H. destruct H as [H Hne]. split; [exact H |].
  simpl. intros [Heq | Hin]; [now apply Hne | now apply Hnot].
Qed.

Lemma no_at_render (names : list string) (l : list item) :
  items_of names l -> (forall k, ~ In (Var k) l) -> no_at (render l) = true.
Proof.
  intros Hl Hno. induction Hl as [| [c | k] l Hit Hl IH]; [reflexivity | |].
  - simpl. apply Ascii.eqb_neq in Hit. rewrite Hit. simpl.
    apply IH. intros k Hk. apply (Hno k). now right.
  - exfalso. apply (Hno k). now left.
Qed.

(** Under the proviso the substitutions do not meet: every order of
    application gives the same string, and no '@' is left in it. *)
Lemma separable_substitutions (bs : list (string * string)) (template : string) :
  NoDup (map fst bs) -> separable bs template = true ->
  (forall l, Permutation l bs ->
             fold_left (fun r kv => replaceAll r (fst kv) (snd kv)) l template
             = fold_left (fun r kv => replaceAll r (fst kv) (snd kv)) bs template)
  /\ no_at (fold_left (fun r kv => replaceAll r (fst kv) (snd kv)) bs template) = true.
Proof.
  intros Hnd Hsep. unfold separable in Hsep.
  apply andb_prop in Hsep. destruct Hsep as [Hsep Hcov].
  apply andb_prop in Hsep. destruct Hsep as [Hsep Hvals].
  apply andb_prop in Hsep. destruct Hsep as [Hnames Hfree].
  rewrite forallb_forall in Hnames, Hvals.
  destruct (covered_items (map fst bs) Hnames (String.length template) template
              (Nat.le_refl _) Hcov) as (items & Hitems & <-).
  assert (Hbs : forall kv, In kv bs -> In (fst kv) (map fst bs) /\ no_at (snd kv) = true).
  { intros kv Hin. split; [now apply in_map |]. apply Hvals. now apply in_map. }
  split.
  - intros l Hperm.
    rewrite (fold_render (map fst bs) Hnames Hfree l); [| | exact Hitems].
    + rewrite (fold_render (map fst bs) Hnames Hfree bs Hbs items Hitems).
      f_equal. apply fold_subst_items_perm.
      * exact Hperm.
      * apply Permutation_NoDup with (l := map fst bs); [| exact Hnd].
        apply Permutation_map. now apply Permutation_sym.
    + intros kv Hin. apply Hbs. eapply Permutation_in; eassumption.
  - rewrite (fold_render (map fst bs) Hnames Hfree bs Hbs items Hitems).
    apply (no_at_render (map fst bs)).
    + apply (items_of_fold (map fst bs)); [| exact Hitems].
      intros kv Hin. now apply Hbs.
    + intros k Hk. apply In_Var_fold in Hk. destruct Hk as [Hk Hnot].
      apply Hnot. unfold items_of in Hitems. rewrite Forall_forall in Hitems.
      apply (Hitems (Var k) Hk).
Qed.

(** ** The rewriter: the loop stops on a subject without a match *)

Lemma replace_loop_no_match (pat : list Block.t) (template : string) (fuel : nat) :
  forall (result : string) (m : MatchedPattern.t) (r : string),
    search result pat = Ok m ->
    replace_loop fuel result pat template m = Ok r ->
    no_match r pat.
Proof.
  induction fuel as [| fuel IH]; intros result m r Hm H; simpl in H; [discriminate |].
  destruct (MatchedPattern.start m =? npos) eqn:E.
  - inv_Ok H. apply N.eqb_eq in E. exists m. auto.
  - inv_bind H. inv_bind H. eapply IH; eassumption.
Qed.

Lemma searchAndReplace_no_match (fuel : nat) (sql : string) (pat : list Block.t)
    (template r : string) :
  searchAndReplace fuel sql pat template = Ok r -> no_match r pat.
Proof.
  unfold searchAndReplace. intros H. inv_bind H.
  eapply replace_loop_no_match; eassumption.
Qed.

Lemma searchAndReplace_fixed (fuel : nat) (r : string) (pat : list Block.t)
    (template : string) :
  no_match r pat -> searchAndReplace (S fuel) r pat template = Ok r.
Proof.
  intros (m & Hm & Hstart). unfold searchAndReplace. rewrite Hm. simpl.
  rewrite Hstart. reflexivity.
Qed.

Lemma translateSql_compiles (fuel : nat) (rules : list (string * string)) :
  forall (str r : string),
    translateSql fuel str rules = Ok r ->
    Forall (fun rule => exists p, parseSearchPattern (fst rule) = Ok p) rules.
Proof.
  induction rules as [| rule rules IH]; intros str r H; simpl in H; constructor.
  - inv_bind H. eauto.
  - inv_bind H. inv_bind H. eapply IH; eassumption.
Qed.

Lemma translateSql_fixed (fuel : nat) (r : string) (rules : list (string * string)) :
  Forall (fun rule => exists p, parseSearchPattern (fst rule) = Ok p /\ no_match r p)
         rules ->
  translateSql (S fuel) r rules = Ok r.
Proof.
  induction 1 as [| rule rules (p & Hp & Hno) _ IH]; simpl; [reflexivity |].
  rewrite Hp. simpl. rewrite (searchAndReplace_fixed fuel r p (snd rule) Hno).
  simpl. exact IH.
Qed.

(** ** The tokenizer fails by [std::out_of_range] only *)

Lemma bind_returns_or_out_of_range {A B : Type} (m : outcome A) (k : A -> outcome B) :
  returns_or_out_of_range m -> (forall a, returns_or_out_of_range (k a)) ->
  returns_or_out_of_range (bind m k).
Proof.
  destruct m as [a | [|] | |]; simpl; intros H Hk; try contradiction; auto.
Qed.

Lemma at_returns_or_out_of_range (s : string) (pos : size_t) :
  returns_or_out_of_range (at_ s pos).
Proof.
  unfold at_. destruct (pos <? size s); [| exact I].
  destruct (String.get (N.to_nat pos) s); exact I.
Qed.

Lemma substr_returns_or_out_of_range (s : string) (pos n : size_t) :
  returns_or_out_of_range (substr s pos n).
Proof. unfold substr. destruct (size s <? pos); exact I. Qed.

Create HintDb outcomes.
#[local] Hint Resolve at_returns_or_out_of_range substr_returns_or_out_of_range : outcomes.

Ltac outcomes :=
  repeat first
    [ exact I
    | solve [auto with outcomes]
    | apply bind_returns_or_out_of_range; [| intros ?]
    | match goal with
      | |- returns_or_out_of_range (if ?b then _ else _) => destruct b
      end ].

Lemma tokenize_body_returns_or_out_of_range (sql : string) (cursor : size_t)
    (st : tokenizer) :
  returns_or_out_of_range (tokenize_body sql cursor st).
Proof. unfold tokenize_body, push_pending, and_at. outcomes. Qed.

Lemma tokenize_loop_returns_or_out_of_range (sql : string) (n : nat) :
  forall cursor st, returns_or_out_of_range (tokenize_loop sql n cursor st).
Proof.
  induction n as [| n IH]; intros cursor st; simpl; [exact I |].
  apply bind_returns_or_out_of_range;
    [apply tokenize_body_returns_or_out_of_range | intros st'; apply IH].
Qed.

Lemma tokenize_returns_or_out_of_range (sql : string) :
  returns_or_out_of_range (tokenize sql).
Proof.
  unfold tokenize. apply bind_returns_or_out_of_range;
    [apply tokenize_loop_returns_or_out_of_range |].
  intros st. unfold push_pending. outcomes.
Qed.

Lemma search_no_Undefined (sql : string) (pat : list Block.t) :
  compiled pat -> no_Undefined (search sql pat).
Proof.
  intros Hpat. unfold search.
  pose proof (tokenize_returns_or_out_of_range (toLowerCase sql)) as H.
  destruct (tokenize (toLowerCase sql)) as [toks | [|] | |]; simpl in *;
    try contradiction; try exact I.
  apply search_loop_no_Undefined; [exact Hpat |].
  simpl. now apply compiled_nonempty.
Qed.

(** ** The tokenizer returns unless the input ends with '-' or '/' *)

Lemma get_in_range (s : string) :
  forall n, (n < String.length s)%nat -> exists ch, String.get n s = Some ch.
Proof.
  induction s as [| c s IH]; simpl; intros n H; [lia |].
  destruct n as [| n]; [eauto |]. apply IH. lia.
Qed.

Lemma at_in_range (s : string) (pos : size_t) :
  pos < size s ->
  exists ch, at_ s pos = Ok ch /\ String.get (N.to_nat pos) s = Some ch.
Proof.
  intros H. unfold at_. destruct (pos <? size s) eqn:E;
    [| apply N.ltb_ge in E; lia].
  destruct (get_in_range s (N.to_nat pos)) as [ch Hch]; [unfold size in H; lia |].
  exists ch. rewrite Hch. auto.
Qed.

Lemma and_at_returns (sql : string) (ch c d : ascii) (guard : bool) (pos : size_t) :
  (ch = c -> guard = true -> pos < size sql) ->
  exists b, and_at sql ch c guard pos d = Ok b.
Proof.
  intros H. unfold and_at. destruct (ch =? c)%char eqn:E; [| eauto].
  apply Ascii.eqb_eq in E. destruct guard; [| eauto].
  destruct (at_in_range sql pos (H E eq_refl)) as (other & -> & _). simpl. eauto.
Qed.

Section TrailingCharacter.
Variable sql : string.
Hypothesis Hlast : forall ch,
    String.get (String.length sql - 1) sql = Some ch ->
    ch <> "-"%char /\ ch <> "/"%char.

Lemma lookahead_in_range (cursor : size_t) (ch c : ascii) :
  cursor < size sql -> String.get (N.to_nat cursor) sql = Some ch ->
  c = "-"%char \/ c = "/"%char ->
  ch = c -> cursor + 1 < size sql.
Proof.
  intros Hc Hget Hc' ->.
  destruct (N.eq_dec (cursor + 1) (size sql)) as [E | E]; [| lia].
  exfalso. unfold size in *.
  replace (N.to_nat cursor) with (String.length sql - 1)%nat in Hget by lia.
  destruct (Hlast c Hget) as [H1 H2]. destruct Hc'; contradiction.
Qed.

Lemma tokenize_body_returns (cursor : size_t) (st : tokenizer) :
  cursor < size sql -> start st <= cursor ->
  exists st', tokenize_body sql cursor st = Ok st'.
Proof.
  intros Hc Hs. unfold tokenize_body.
  destruct (at_in_range sql cursor Hc) as (ch & -> & Hget). simpl.
  destruct (commentType1 st).
  { destruct (ch =? newline)%char; eauto. }
  destruct (commentType2 st).
  { destruct (and_at_returns sql ch "/" "*" (0 <? cursor) (cursor - 1)) as [b ->].
    - intros _ H. apply N.ltb_lt in H. lia.
    - simpl. destruct b; eauto. }
  destruct (negb (isalnum ch) && negb (ch =? "_")%char && negb (ch =? "@")%char);
    [| eauto].
  unfold push_pending.
  assert (Hpend : exists toks,
             (if start st <? cursor
              then txt <- substr sql (start st) (cursor - start st) ;;
                   Ok (tokens st ++ [Token.mk (start st) cursor txt])
              else Ok (tokens st)) = Ok toks).
  { destruct (start st <? cursor); [| eauto].
    rewrite substr_in_range by lia. simpl. eauto. }
  destruct Hpend as [toks ->]. simpl.
  destruct (and_at_returns sql ch "-" "-" (cursor <? size sql) (cursor + 1)) as [b ->].
  { intros H _. apply (lookahead_in_range cursor ch "-"); auto. }
  simpl. destruct b; [eauto |].
  destruct (and_at_returns sql ch "/" "*" (cursor <? size sql) (cursor + 1)) as [b ->].
  { intros H _. apply (lookahead_in_range cursor ch "/"); auto. }
  simpl. destruct b; [eauto |].
  destruct (negb (isspace ch)); [| eauto].
  rewrite substr_in_range by lia. simpl. eauto.
Qed.

Lemma tokenize_loop_returns (n : nat) :
  forall cursor st,
    N.of_nat n + cursor = size sql -> tokenizer_inv sql cursor st ->
    exists st', tokenize_loop sql n cursor st = Ok st'.
Proof.
  induction n as [| n IH]; intros cursor st Hn Hinv; simpl; [eauto |].
  destruct (tokenize_body_returns cursor st) as [st1 Hst1];
    [lia | apply Hinv |].
  rewrite Hst1. simpl. apply IH; [lia |].
  apply (tokenize_body_inv sql cursor st st1); [lia | exact Hinv | exact Hst1].
Qed.

Lemma tokenize_returns : exists toks, tokenize sql = Ok toks.
Proof.
  unfold tokenize.
  assert (Hinit : tokenizer_inv sql 0 (mkTokenizer [] 0 false false))
    by (constructor; simpl; [lia | constructor | lia]).
  destruct (tokenize_loop_returns (String.length sql) 0
              (mkTokenizer [] 0 false false)) as [st Hst];
    [unfold size; lia | exact Hinit |].
  rewrite Hst. simpl.
  apply tokenize_loop_inv in Hst; [| unfold size; lia | exact Hinit].
  destruct Hst as [Hs _ _]. unfold push_pending.
  destruct (start st <? size sql); [| eauto].
  rewrite substr_in_range by lia. simpl. eauto.
Qed.
End TrailingCharacter.

(** ** The tokenizer: a comment that is closed leaves no token *)

Lemma get_Some_lt (s : string) :
  forall n ch, String.get n s = Some ch -> (n < String.length s)%nat.
Proof.
  induction s as [| c s IH]; simpl; intros n ch H; [discriminate |].
  destruct n as [| n]; [lia |]. apply IH in H. lia.
Qed.

Lemma at_get (s : string) (pos : size_t) (ch : ascii) :
  String.get (N.to_nat pos) s = Some ch -> at_ s pos = Ok ch.
Proof.
  intros H. unfold at_. pose proof (get_Some_lt _ _ _ H) as Hlt.
  destruct (pos <? size s) eqn:E; [now rewrite H |].
  apply N.ltb_ge in E. unfold size in E. lia.
Qed.

Lemma tokenize_loop_app (sql : string) (a : nat) :
  forall b cursor st,
    tokenize_loop sql (a + b) cursor st =
    (st' <- tokenize_loop sql a cursor st ;;
     tokenize_loop sql b (cursor + N.of_nat a) st').
Proof.
  induction a as [| a IH]; intros b cursor st.
  - simpl. now rewrite N.add_0_r.
  - change (tokenize_loop sql (S a + b) cursor st)
      with (st' <- tokenize_body sql cursor st ;;
            tokenize_loop sql (a + b) (cursor + 1) st').
    change (tokenize_loop sql (S a) cursor st)
      with (st' <- tokenize_body sql cursor st ;;
            tokenize_loop sql a (cursor + 1) st').
    destruct (tokenize_body sql cursor st) as [st1 | e | |]; simpl; try reflexivity.
    rewrite IH. replace (cursor + 1 + N.of_nat a) with (cursor + N.of_nat (S a)) by lia.
    reflexivity.
Qed.

(** Inside a line comment, characters other than the line feed change
    nothing. *)
Lemma line_comment_run (sql : string) (k : nat) :
  forall cursor st,
    commentType1 st = true ->
    (forall i, (i < k)%nat ->
               exists ch, String.get (N.to_nat cursor + i) sql = Some ch /\ ch <> newline) ->
    tokenize_loop sql k cursor st = Ok st.
Proof.
  induction k as [| k IH]; intros cursor st Hc1 Hrun; simpl; [reflexivity |].
  destruct (Hrun 0%nat) as (ch & Hch & Hnl); [lia |].
  rewrite Nat.add_0_r in Hch. unfold tokenize_body.
  rewrite (at_get _ _ _ Hch). simpl. rewrite Hc1.
  apply Ascii.eqb_neq in Hnl. rewrite Hnl. apply IH; [exact Hc1 |].
  intros i Hi. destruct (Hrun (S i)) as (ch' & Hch' & Hnl'); [lia |].
  exists ch'. split; [| exact Hnl'].
  replace (N.to_nat (cursor + 1) + i)%nat with (N.to_nat cursor + S i)%nat by lia.
  exact Hch'.
Qed.

(** From the two dashes to the line feed: the word that was pending
    before the comment is the only token pushed, and the scan resumes
    behind the line feed, outside a comment. *)
Lemma line_comment_leaves_no_token (sql : string) (cursor : size_t) (k : nat)
    (toks : list Token.t) (start0 : size_t) :
  String.get (N.to_nat cursor) sql = Some "-"%char ->
  String.get (N.to_nat cursor + 1) sql = Some "-"%char ->
  (forall i, (i < k)%nat ->
             exists ch, String.get (N.to_nat cursor + 1 + i) sql = Some ch
                        /\ ch <> newline) ->
  String.get (N.to_nat cursor + 1 + k) sql = Some newline ->
  tokenize_loop sql (1 + (k + 1)) cursor (mkTokenizer toks start0 false false) =
  (toks' <- push_pending sql toks start0 cursor ;;
   Ok (mkTokenizer toks' (cursor + N.of_nat k + 2) false false)).
Proof.
  intros H0 H1 Hrun Hnl. rewrite tokenize_loop_app.
  pose proof (get_Some_lt _ _ _ H0) as Hlt.
  assert (Hfirst : tokenize_loop sql 1 cursor (mkTokenizer toks start0 false false)
                   = (toks' <- push_pending sql toks start0 cursor ;;
                      Ok (mkTokenizer toks' (cursor + 1) true false))).
  { simpl. unfold tokenize_body. rewrite (at_get _ _ _ H0). simpl.
    destruct (push_pending sql toks start0 cursor) as [toks' | e | |]; simpl;
      try reflexivity.
    unfold and_at. simpl.
    destruct (cursor <? size sql) eqn:E;
      [| apply N.ltb_ge in E; unfold size in E; lia].
    rewrite (at_get sql (cursor + 1) "-"%char)
      by (replace (N.to_nat (cursor + 1)) with (N.to_nat cursor + 1)%nat by lia;
          exact H1).
    reflexivity. }
  rewrite Hfirst.
  destruct (push_pending sql toks start0 cursor) as [toks' | e | |]; simpl;
    try reflexivity.
  rewrite tokenize_loop_app.
  rewrite (line_comment_run sql k (cursor + 1)); [| reflexivity |].
  - simpl. unfold tokenize_body.
    rewrite (at_get sql (cursor + 1 + N.of_nat k) newline)
      by (replace (N.to_nat (cursor + 1 + N.of_nat k))
            with (N.to_nat cursor + 1 + k)%nat by lia; exact Hnl).
    simpl. do 2 f_equal. lia.
  - intros i Hi. destruct (Hrun i Hi) as (ch & Hch & Hne).
    exists ch. split; [| exact Hne].
    replace (N.to_nat (cursor + 1) + i)%nat with (N.to_nat cursor + 1 + i)%nat by lia.
    exact Hch.
Qed.

(** Inside a block comment, a character that is not a '/' behind a '*'
    changes nothing. *)
Lemma block_comment_run (sql : string) (k : nat) :
  forall cursor st,
    commentType1 st = false -> commentType2 st = true ->
    (forall i, (i < k)%nat ->
               exists ch prev,
                 String.get (N.to_nat cursor + i) sql = Some ch /\
                 String.get (N.to_nat cursor + i - 1) sql = Some prev /\
                 ~ (ch = "/"%char /\ prev = "*"%char)) ->
    0 < cursor ->
    tokenize_loop sql k cursor st = Ok st.
Proof.
  induction k as [| k IH]; intros cursor st Hc1 Hc2 Hrun Hpos; simpl; [reflexivity |].
  destruct (Hrun 0%nat) as (ch & prev & Hch & Hprev & Hopen); [lia |].
  rewrite Nat.add_0_r in Hch, Hprev. unfold tokenize_body.
  rewrite (at_get _ _ _ Hch). simpl. rewrite Hc1, Hc2.
  assert (Hand : and_at sql ch "/" (0 <? cursor) (cursor - 1) "*" = Ok false).
  { unfold and_at. destruct (ch =? "/")%char eqn:E; [| reflexivity].
    apply Ascii.eqb_eq in E.
    destruct (0 <? cursor) eqn:E0; [| apply N.ltb_ge in E0; lia].
    rewrite (at_get sql (cursor - 1) prev)
      by (replace (N.to_nat (cursor - 1)) with (N.to_nat cursor - 1)%nat by lia;
          exact Hprev).
    simpl. destruct (prev =? "*")%char eqn:E1; [| reflexivity].
    apply Ascii.eqb_eq in E1. tauto. }
  rewrite Hand. simpl. apply IH; try assumption; [| lia].
  intros i Hi. destruct (Hrun (S i)) as (ch' & prev' & Hch' & Hprev' & Hopen'); [lia |].
  exists ch', prev'. repeat split; [| | exact Hopen'].
  - replace (N.to_nat (cursor + 1) + i)%nat with (N.to_nat cursor + S i)%nat by lia.
    exact Hch'.
  - replace (N.to_nat (cursor + 1) + i - 1)%nat
      with (N.to_nat cursor + S i - 1)%nat by lia.
    exact Hprev'.
Qed.

(** From the opening mark to the first '/' that stands behind a '*': the
    word that was pending before the comment is the only token pushed, and
    the scan resumes behind that '/', outside a comment. *)
Lemma block_comment_leaves_no_token (sql : string) (cursor : size_t) (k : nat)
    (toks : list Token.t) (start0 : size_t) :
  String.get (N.to_nat cursor) sql = Some "/"%char ->
  String.get (N.to_nat cursor + 1) sql = Some "*"%char ->
  (forall i, (i < k)%nat ->
             exists ch prev,
               String.get (N.to_nat cursor + 1 + i) sql = Some ch /\
               String.get (N.to_nat cursor + i) sql = Some prev /\
               ~ (ch = "/"%char /\ prev = "*"%char)) ->
  String.get (N.to_nat cursor + 1 + k) sql = Some "/"%char ->
  String.get (N.to_nat cursor + k) sql = Some "*"%char ->
  tokenize_loop sql (1 + (k + 1)) cursor (mkTokenizer toks start0 false false) =
  (toks' <- push_pending sql toks start0 cursor ;;
   Ok (mkTokenizer toks' (cursor + N.of_nat k + 2) false false)).
Proof.
  intros H0 H1 Hrun Hslash Hstar. rewrite tokenize_loop_app.
  pose proof (get_Some_lt _ _ _ H0) as Hlt.
  assert (Hfirst : tokenize_loop sql 1 cursor (mkTokenizer toks start0 false false)
                   = (toks' <- push_pending sql toks start0 cursor ;;
                      Ok (mkTokenizer toks' (cursor + 1) false true))).
  { simpl. unfold tokenize_body. rewrite (at_get _ _ _ H0). simpl.
    destruct (push_pending sql toks start0 cursor) as [toks' | e | |]; simpl;
      try reflexivity.
    unfold and_at. simpl.
    destruct (cursor <? size sql) eqn:E;
      [| apply N.ltb_ge in E; unfold size in E; lia].
    rewrite (at_get sql (cursor + 1) "*"%char)
      by (replace (N.to_nat (cursor + 1)) with (N.to_nat cursor + 1)%nat by lia;
          exact H1).
    reflexivity. }
  rewrite Hfirst.
  destruct (push_pending sql toks start0 cursor) as [toks' | e | |]; simpl;
    try reflexivity.
  rewrite tokenize_loop_app.
  rewrite (block_comment_run sql k (cursor + 1)); [| reflexivity | reflexivity | | lia].
  - simpl. unfold tokenize_body.
    rewrite (at_get sql (cursor + 1 + N.of_nat k) "/"%char)
      by (replace (N.to_nat (cursor + 1 + N.of_nat k))
            with (N.to_nat cursor + 1 + k)%nat by lia; exact Hslash).
    simpl. unfold and_at. simpl.
    destruct (0 <? cursor + 1 + N.of_nat k) eqn:E; [| apply N.ltb_ge in E; lia].
    rewrite (at_get sql (cursor + 1 + N.of_nat k - 1) "*"%char)
      by (replace (N.to_nat (cursor + 1 + N.of_nat k - 1))
            with (N.to_nat cursor + k)%nat by lia; exact Hstar).
    simpl. do 2 f_equal. lia.
  - intros i Hi. destruct (Hrun i Hi) as (ch & prev & Hch & Hprev & Hopen).
    exists ch, prev. repeat split; [| | exact Hopen].
    + replace (N.to_nat (cursor + 1) + i)%nat with (N.to_nat cursor + 1 + i)%nat by lia.
      exact Hch.
    + replace (N.to_nat (cursor + 1) + i - 1)%nat with (N.to_nat cursor + i)%nat by lia.
      exact Hprev.
Qed.

(** [search] is the scan of all the tokens, and [npos] when it ends none. *)
Lemma search_loop_scan (sql : string) (pat : list Block.t) (toks : list Token.t) :
  forall st,
    search_loop sql pat toks st =
    (r <- scan sql pat toks st ;;
     match r with
     | Return m => Ok m
     | Next st' => Ok (MatchedPattern.with_start npos (matchedPattern st'))
     end).
Proof.
  induction toks as [| token rest IH]; intros st; simpl; [reflexivity |].
  destruct (search_body sql pat token st) as [[m | st'] | e | |]; simpl; auto.
Qed.

(** * The examples of the specification *)

Example tokenize_skips_line_comment :
  tokenize ("SELECT 1 -- comment" ++ nl ++ "FROM t")%string
  = Ok [Token.mk 0 6 "SELECT"; Token.mk 7 8 "1";
        Token.mk 20 24 "FROM"; Token.mk 25 26 "t"].
Proof. vm_compute; reflexivity. Qed.

Example tokenize_skips_block_comment :
  tokenize "a/* x */b" = Ok [Token.mk 0 1 "a"; Token.mk 8 9 "b"].
Proof. vm_compute; reflexivity. Qed.

Example tokenize_white_space_only : tokenize "   " = Ok [].
Proof. vm_compute; reflexivity. Qed.

Example parse_minimal_pattern :
  parseSearchPattern "a = @x and"
  = Ok [Block.mk "a" false; Block.mk "=" false;
        Block.mk "@x" true; Block.mk "and" false].
Proof. vm_compute; reflexivity. Qed.

Example parse_rejects_trailing_variable :
  parseSearchPattern "a = @x" = Throw (pattern_error "a = @x").
Proof. vm_compute; reflexivity. Qed.

Example translate_without_rules (fuel : nat) (subject : string) :
  translateSql fuel subject [] = Ok subject.
Proof. reflexivity. Qed.

(** "if a replacement template, once substituted, can itself match the
    same search pattern, this loops forever": no budget is enough. *)
Example translate_self_matching_rule_never_stops (fuel : nat) :
  translateSql fuel "a" [("a", "a")] = NoFuel.
Proof.
  assert (Hsearch : search "a" [Block.mk "a" false] = Ok (MatchedPattern.mk 0 1 []))
    by (vm_compute; reflexivity).
  assert (Hsplice : splice "a" (MatchedPattern.mk 0 1 []) (substitute "a" []) = Ok "a")
    by (vm_compute; reflexivity).
  assert (Hloop : forall n,
             replace_loop n "a" [Block.mk "a" false] "a" (MatchedPattern.mk 0 1 [])
             = NoFuel).
  { induction n as [| n IH]; [reflexivity |].
    change (replace_loop (S n) "a" [Block.mk "a" false] "a" (MatchedPattern.mk 0 1 []))
      with (result' <- splice "a" (MatchedPattern.mk 0 1 []) (substitute "a" []) ;;
            m' <- search result' [Block.mk "a" false] ;;
            replace_loop n result' [Block.mk "a" false] "a" m').
    rewrite Hsplice. cbn [bind]. rewrite Hsearch. cbn [bind]. exact IH. }
  change (translateSql fuel "a" [("a", "a")])
    with (parsedPattern <- parseSearchPattern "a" ;;
          result <- searchAndReplace fuel "a" parsedPattern "a" ;;
          translateSql fuel result []).
  replace (parseSearchPattern "a") with (Ok [Block.mk "a" false])
    by (vm_compute; reflexivity).
  cbn [bind]. unfold searchAndReplace. rewrite Hsearch. cbn [bind].
  now rewrite Hloop.
Qed.

(** * The statements of the specification *)

(** ** Tokenizer *)

(** C9. For every input [s], every token that [tokenize s] emits carries
    offsets into [s] itself: [start < end <= s.length()], and its text is
    the substring of [s] from [start] (inclusive) to [end] (exclusive),
    although white space and comments leave no token. *)
Theorem tokenize_offsets_slice_input (s : string) (toks : list Token.t) :
  tokenize s = Ok toks ->
  Forall (fun t =>
            Token.start t < Token.end_ t /\ Token.end_ t <= size s /\
            Token.text t =
              String.substring (N.to_nat (Token.start t))
                               (N.to_nat (Token.end_ t - Token.start t)) s)
         toks.
Proof.
  intros H. apply tokenize_chain in H. destruct H as [H _]. exact H.
Qed.

Lemma tokenize_offsets_slice_input_witness :
  let s := ("SELECT 1 -- comment" ++ nl ++ "FROM t")%string in
  tokenize s
  = Ok [Token.mk 0 6 "SELECT"; Token.mk 7 8 "1";
        Token.mk 20 24 "FROM"; Token.mk 25 26 "t"]
  /\ Forall (fun t =>
               Token.start t < Token.end_ t /\ Token.end_ t <= size s /\
               Token.text t =
                 String.substring (N.to_nat (Token.start t))
                                  (N.to_nat (Token.end_ t - Token.start t)) s)
            [Token.mk 0 6 "SELECT"; Token.mk 7 8 "1";
             Token.mk 20 24 "FROM"; Token.mk 25 26 "t"].
Proof.
  intros s.
  assert (H : tokenize s
              = Ok [Token.mk 0 6 "SELECT"; Token.mk 7 8 "1";
                    Token.mk 20 24 "FROM"; Token.mk 25 26 "t"])
    by (vm_compute; reflexivity).
  split; [exact H |].
  exact (tokenize_offsets_slice_input s _ H).
Defined.

(** ** Matcher *)

(** C10. For every pattern that [parseSearchPattern] returns and every
    subject, [search] reads the pattern inside its bounds: in every state
    that the scan reaches, [matchCount] is below the size of the pattern,
    and when the current block is a variable so is [matchCount + 1], the
    index of the terminator; hence no read of [parsedPattern] is undefined
    and, once the subject is tokenized, [search] returns.  Nothing is
    asked of the blocks between the first and the last, so two adjacent
    variables are covered. *)
Theorem search_reads_pattern_in_bounds
    (pattern sql : string) (pat : list Block.t) :
  parseSearchPattern pattern = Ok pat ->
  (forall done st,
      reaches sql pat done st ->
      matchCount st < vsize pat /\
      (forall cur, index pat (matchCount st) = Ok cur ->
                   Block.isVariable cur = true ->
                   matchCount st + 1 < vsize pat))
  /\ search sql pat <> Undefined
  /\ (forall toks, tokenize (toLowerCase sql) = Ok toks ->
                   exists m, search sql pat = Ok m).
Proof.
  intros Hparse. pose proof (parseSearchPattern_compiled _ _ Hparse) as Hpat.
  repeat split.
  - eapply reaches_count; eassumption.
  - intros cur Hcur Hvar. eapply compiled_last; eassumption.
  - intros H. pose proof (search_no_Undefined sql pat Hpat) as Hno.
    rewrite H in Hno. exact Hno.
  - intros toks Htoks.
    destruct (search_found sql pat toks Hpat Htoks) as (m & Hm & _). eauto.
Qed.

Lemma search_reads_pattern_in_bounds_witness :
  exists pat,
    parseSearchPattern "a @x @y b" = Ok pat /\
    (exists x y, index pat 1 = Ok x /\ Block.isVariable x = true /\
                 index pat 2 = Ok y /\ Block.isVariable y = true) /\
    search "A 1 @Y B" pat <> Undefined.
Proof.
  eexists. split; [vm_compute; reflexivity |]. split.
  - do 2 eexists. repeat split; vm_compute; reflexivity.
  - refine (proj1 (proj2 (search_reads_pattern_in_bounds "a @x @y b" "A 1 @Y B" _ _))).
    vm_compute; reflexivity.
Defined.



(** C2. The pattern "f(@x) end" compiles, and [search] on the subject
    "f((1+2)) end" succeeds and binds @x to "(1+2)".  After the tokens
    [f ( ( 1 + 2] the variable is the current block and one '(' is on the
    nesting stack; the ')' behind '2' pops it and leaves the variable
    current, without a binding; the next ')' meets the empty stack, ends
    the capture and binds @x; the token [end] then completes the match. *)
Theorem nested_parenthesis_does_not_end_capture :
  exists pat toks st6 st7 st8,
    parseSearchPattern "f(@x) end" = Ok pat /\
    tokenize (toLowerCase "f((1+2)) end") = Ok toks /\
    index pat 2 = Ok (Block.mk "@x" true) /\
    index pat 3 = Ok (Block.mk ")" false) /\
    (* after [f ( ( 1 + 2] *)
    scan "f((1+2)) end" pat (firstn 6 toks) (mkMatcher 0 0 [] MatchedPattern.init)
    = Ok (Next st6) /\
    matchCount st6 = 2 /\ nestStack st6 = ["("] /\
    MatchedPattern.variableToValue (matchedPattern st6) = [] /\
    (* the ')' behind '2' *)
    nth_error toks 6 = Some (Token.mk 6 7 ")") /\
    search_body "f((1+2)) end" pat (Token.mk 6 7 ")") st6 = Ok (Next st7) /\
    matchCount st7 = 2 /\ nestStack st7 = [] /\
    MatchedPattern.variableToValue (matchedPattern st7) = [] /\
    (* the last ')' *)
    nth_error toks 7 = Some (Token.mk 7 8 ")") /\
    search_body "f((1+2)) end" pat (Token.mk 7 8 ")") st7 = Ok (Next st8) /\
    matchCount st8 = 4 /\
    MatchedPattern.variableToValue (matchedPattern st8) = [("@x", "(1+2)")] /\
    (* [end] *)
    nth_error toks 8 = Some (Token.mk 9 12 "end") /\
    index pat 4 = Ok (Block.mk "end" false) /\
    search "f((1+2)) end" pat = Ok (MatchedPattern.mk 0 12 [("@x", "(1+2)")]).
Proof.
  do 5 eexists.
  split; [vm_compute; reflexivity |].
  split; [vm_compute; reflexivity |].
  repeat split; vm_compute; reflexivity.
Qed.

(** C3, as the specification words it, does not hold: the pattern
    "select @cols from @tbl" ends with a variable, [parseSearchPattern]
    rejects it, and there is no compiled pattern to match with. *)
Lemma select_from_pattern_does_not_compile :
  ~ exists pat m,
      parseSearchPattern "select @cols from @tbl" = Ok pat /\
      search "SELECT a, b FROM orders" pat = Ok m /\
      MatchedPattern.start m <> npos /\
      StringMap.find "@cols" (MatchedPattern.variableToValue m) = Some "a, b " /\
      StringMap.find "@tbl" (MatchedPattern.variableToValue m) = Some "orders".
Proof.
  intros (pat & m & H & _). vm_compute in H. discriminate.
Qed.

(** C3, amended.  Compiling "select @cols from @tbl" fails with the
    pattern error, its last block being the variable @tbl.  With a literal
    behind the variable, the pattern "select @cols from @tbl;" compiles and
    matches the subject "SELECT a, b FROM orders;": @cols is bound to
    " a, b " and @tbl to " orders", each capture running from the end of
    the literal before it, in the case of the subject. *)
Theorem select_from_matches_with_closing_literal :
  parseSearchPattern "select @cols from @tbl"
  = Throw (pattern_error "select @cols from @tbl")
  /\ exists pat,
       parseSearchPattern "select @cols from @tbl;" = Ok pat /\
       search "SELECT a, b FROM orders;" pat
       = Ok (MatchedPattern.mk 0 24 [("@cols", " a, b "); ("@tbl", " orders")]).
Proof.
  split; [vm_compute; reflexivity |].
  eexists. split; vm_compute; reflexivity.
Qed.

(** The blocks of "select @cols from @tbl", were they handed to [search]
    uncompiled, make it read [parsedPattern] behind its last block. *)
Example search_uncompiled_reads_out_of_bounds :
  search "SELECT a, b FROM orders"
         [Block.mk "select" false; Block.mk "@cols" true;
          Block.mk "from" false; Block.mk "@tbl" true]
  = Undefined.
Proof. vm_compute; reflexivity. Qed.

(** ** Pattern parser *)

Lemma last_cons {A : Type} (l : list A) :
  forall a x, List.last (a :: l) x = List.last l a.
Proof.
  induction l as [| b l IH]; intros a x; [reflexivity |].
  change (List.last (b :: l) x = List.last (b :: l) a).
  now rewrite !IH.
Qed.

Lemma nth_error_last {A : Type} (l : list A) :
  forall x, nth_error (x :: l) (List.length l) = Some (List.last l x).
Proof.
  induction l as [| y l IH]; intros x; [reflexivity |].
  change (nth_error (y :: l) (List.length l) = Some (List.last (y :: l) x)).
  now rewrite IH, last_cons.
Qed.

Lemma last_map {A B : Type} (f : A -> B) (l : list A) :
  forall x, List.last (map f l) (f x) = f (List.last l x).
Proof.
  induction l as [| y l IH]; intros x; [reflexivity |].
  destruct l as [| z l]; [reflexivity |].
  change (List.last (map f (z :: l)) (f x) = f (List.last (z :: l) x)).
  apply IH.
Qed.

(** What [parseSearchPattern] does, by the tokens of the lower-cased
    pattern. *)
Lemma parseSearchPattern_outcome (pattern : string) :
  parseSearchPattern pattern =
  match tokenize (toLowerCase pattern) with
  | Ok [] => Undefined
  | Ok (t :: ts) =>
      if Block.isVariable (to_block t)
         || Block.isVariable (to_block (List.last ts t))
      then Throw (pattern_error pattern)
      else Ok (map to_block (t :: ts))
  | Throw e => Throw e
  | Undefined => Undefined
  | NoFuel => NoFuel
  end.
Proof.
  unfold parseSearchPattern.
  destruct (tokenize (toLowerCase pattern)) as [[| t ts] | e | |];
    try reflexivity.
  assert (Hfirst : index (map to_block (t :: ts)) 0 = Ok (to_block t))
    by reflexivity.
  assert (Hlast : index (map to_block (t :: ts))
                        (sub_sz (vsize (map to_block (t :: ts))) 1)
                  = Ok (to_block (List.last ts t))).
  { apply index_Ok. unfold sub_sz, vsize.
    change (List.length (map to_block (t :: ts)))
      with (S (List.length (map to_block ts))).
    destruct (1 <=? N.of_nat (S (List.length (map to_block ts)))) eqn:E;
      [apply N.leb_le in E | apply N.leb_gt in E; lia].
    split; [lia |].
    replace (N.to_nat (N.of_nat (S (List.length (map to_block ts))) - 1))
      with (List.length (map to_block ts)) by lia.
    change (map to_block (t :: ts)) with (to_block t :: map to_block ts).
    rewrite nth_error_last. now rewrite last_map. }
  cbn [bind]. rewrite Hfirst. cbn [bind].
  destruct (Block.isVariable (to_block t)); [reflexivity |].
  rewrite Hlast. cbn [bind orb].
  destruct (Block.isVariable (to_block (List.last ts t))); reflexivity.
Qed.

(** C4, where the source departs from it.  A pattern without a token -
    the empty pattern, white space, a comment - is not rejected with the
    pattern error: [blocks[0]] is read in an empty vector, which is
    undefined.  A pattern whose last character is '-' or '/' leaves by the
    [std::out_of_range] of the tokenizer.  The patterns "@x = 1" and "@x"
    are rejected with the pattern error, as the specification says. *)
Theorem parseSearchPattern_without_blocks_is_undefined :
  parseSearchPattern EmptyString = Undefined /\
  parseSearchPattern "   " = Undefined /\
  parseSearchPattern "/* any */" = Undefined /\
  parseSearchPattern "a -" = Throw out_of_range /\
  parseSearchPattern "@x = 1" = Throw (pattern_error "@x = 1") /\
  parseSearchPattern "@x" = Throw (pattern_error "@x").
Proof. repeat split; vm_compute; reflexivity. Qed.

(** ** Tokenizer: the ends of the input *)

(** C5, where the source departs from it.  A comment that the input does
    not close leaves a token: the text from the second character of the
    comment mark to the end of the input.  (A comment that is closed
    leaves none, see [line_comment_leaves_no_token] and
    [block_comment_leaves_no_token]; the '/' that closes a block comment
    is the first one behind a '*', be it the '*' of the opening mark, as
    in the last input.) *)
Theorem tokenize_unterminated_comment_leaves_token :
  tokenize "SELECT 1 -- done"
  = Ok [Token.mk 0 6 "SELECT"; Token.mk 7 8 "1"; Token.mk 10 16 "- done"]
  /\ tokenize "a /* x" = Ok [Token.mk 0 1 "a"; Token.mk 3 6 "* x"]
  /\ tokenize "--" = Ok [Token.mk 1 2 "-"]
  /\ tokenize "/*/ x */ y"
     = Ok [Token.mk 4 5 "x"; Token.mk 6 7 "*"; Token.mk 7 8 "/"; Token.mk 9 10 "y"].
Proof. repeat split; vm_compute; reflexivity. Qed.

(** C6, where the source departs from it.  On an input whose last
    character is '-' or '/', outside a comment, [sql.at(cursor + 1)] is
    called with [cursor + 1 = sql.length()] and throws. *)
Theorem tokenize_throws_on_trailing_dash_or_slash :
  tokenize "-" = Throw out_of_range /\
  tokenize "/" = Throw out_of_range /\
  tokenize "SELECT a -" = Throw out_of_range /\
  tokenize "SELECT a /" = Throw out_of_range.
Proof. repeat split; vm_compute; reflexivity. Qed.

(** ** Rewriter *)

(** C7, as the specification words it, does not hold: the order of the
    substitutions matters.  The pattern "f @a g @ab h" on the subject
    "f 1 g 2 h" binds @a and @ab; in the template "@ab" the name @a occurs
    inside @ab, and the two orders give " 1 b" and " 2 ". *)
Lemma substitution_order_matters :
  exists pat m,
    parseSearchPattern "f @a g @ab h" = Ok pat /\
    search "f 1 g 2 h" pat = Ok m /\
    MatchedPattern.variableToValue m = [("@a", " 1 "); ("@ab", " 2 ")] /\
    substitute "@ab" [("@a", " 1 "); ("@ab", " 2 ")] = " 1 b" /\
    substitute "@ab" [("@ab", " 2 "); ("@a", " 1 ")] = " 2 " /\
    substitute "@ab" (MatchedPattern.variableToValue m)
    <> substitute "@ab" (rev (MatchedPattern.variableToValue m)).
Proof.
  eexists. eexists.
  split; [vm_compute; reflexivity |].
  split; [vm_compute; reflexivity |].
  repeat split; try (vm_compute; reflexivity).
  vm_compute. discriminate.
Qed.

(** Each clause of [separable] is needed: a bound value that holds a
    name, an '@' of the template that starts no bound name, and a name
    with a second '@' each make the order of the substitutions visible
    (for a name that starts another one see
    [substitution_order_matters]). *)
Lemma separable_clauses_matter :
  (separable [("@a", " @b "); ("@b", " 2 ")] "@a" = false /\
   substitute "@a" [("@a", " @b "); ("@b", " 2 ")] = "  2  " /\
   substitute "@a" [("@b", " 2 "); ("@a", " @b ")] = " @b ")
  /\ (separable [("@a", "1"); ("@x1", "2")] "@x@a" = false /\
      substitute "@x@a" [("@a", "1"); ("@x1", "2")] = "2" /\
      substitute "@x@a" [("@x1", "2"); ("@a", "1")] = "@x1")
  /\ (separable [("@a@b", "1"); ("@b", "2")] "@a@b" = false /\
      substitute "@a@b" [("@a@b", "1"); ("@b", "2")] = "1" /\
      substitute "@a@b" [("@b", "2"); ("@a@b", "1")] = "@a2").
Proof. repeat split; vm_compute; reflexivity. Qed.

(** C7, amended.  The bindings of a match are held with one entry for
    each variable name, in ascending order of the names, and a round of
    [searchAndReplace] splices in the template to which [replaceAll] has
    been applied for every one of them, each once, in that order.  When
    every bound name is an '@' followed by characters other than '@', no
    bound name starts another one, no bound value holds an '@' and every
    '@' of the template starts a bound name, no '@' is left in that string
    and every order of application of the same substitutions gives the
    same string.  (Without the proviso the string can differ.) *)
Theorem substitution_follows_name_order
    (sql : string) (pat : list Block.t) (m : MatchedPattern.t) (template : string) :
  search sql pat = Ok m ->
  ascending (MatchedPattern.variableToValue m)
  /\ NoDup (StringMap.keys (MatchedPattern.variableToValue m))
  /\ (forall fuel,
         MatchedPattern.start m <> npos ->
         searchAndReplace (S fuel) sql pat template =
         (result' <- splice sql m
                       (fold_left (fun r kv => replaceAll r (fst kv) (snd kv))
                                  (MatchedPattern.variableToValue m) template) ;;
          searchAndReplace fuel result' pat template))
  /\ (separable (MatchedPattern.variableToValue m) template = true ->
      no_at (fold_left (fun r kv => replaceAll r (fst kv) (snd kv))
                       (MatchedPattern.variableToValue m) template) = true
      /\ forall l,
           Permutation l (MatchedPattern.variableToValue m) ->
           fold_left (fun r kv => replaceAll r (fst kv) (snd kv)) l template
           = fold_left (fun r kv => replaceAll r (fst kv) (snd kv))
                       (MatchedPattern.variableToValue m) template).
Proof.
  intros Hm. pose proof (search_ascending _ _ _ Hm) as Hasc.
  pose proof (ascending_NoDup _ Hasc) as Hnd.
  split; [exact Hasc |]. split; [exact Hnd |]. split.
  - intros fuel Hstart. unfold searchAndReplace at 1. rewrite Hm.
    cbn [bind replace_loop]. apply N.eqb_neq in Hstart. rewrite Hstart.
    reflexivity.
  - intros Hsep.
    destruct (separable_substitutions _ template Hnd Hsep) as [Hperm Hno].
    split; assumption.
Qed.

Lemma substitution_follows_name_order_witness :
  exists pat m,
    parseSearchPattern "select top @n * from @t;" = Ok pat /\
    search "SELECT TOP 10 * FROM person;" pat = Ok m /\
    MatchedPattern.variableToValue m = [("@n", " 10 "); ("@t", " person")] /\
    searchAndReplace 2 "SELECT TOP 10 * FROM person;" pat "select * from @t limit @n;"
    = (result' <- splice "SELECT TOP 10 * FROM person;" m
                    (fold_left (fun r kv => replaceAll r (fst kv) (snd kv))
                               [("@n", " 10 "); ("@t", " person")]
                               "select * from @t limit @n;") ;;
       searchAndReplace 1 result' pat "select * from @t limit @n;") /\
    fold_left (fun r kv => replaceAll r (fst kv) (snd kv))
              [("@t", " person"); ("@n", " 10 ")] "select * from @t limit @n;"
    = fold_left (fun r kv => replaceAll r (fst kv) (snd kv))
                [("@n", " 10 "); ("@t", " person")] "select * from @t limit @n;" /\
    fold_left (fun r kv => replaceAll r (fst kv) (snd kv))
              [("@n", " 10 "); ("@t", " person")] "select * from @t limit @n;"
    = "select * from  person limit  10 ;" /\
    searchAndReplace 2 "SELECT TOP 10 * FROM person;" pat "select * from @t limit @n;"
    = Ok "select * from  person limit  10 ;".
Proof.
  eexists. eexists.
  split; [vm_compute; reflexivity |].
  assert (Hm : search "SELECT TOP 10 * FROM person;"
                 [Block.mk "select" false; Block.mk "top" false; Block.mk "@n" true;
                  Block.mk "*" false; Block.mk "from" false; Block.mk "@t" true;
                  Block.mk ";" false]
               = Ok (MatchedPattern.mk 0 28 [("@n", " 10 "); ("@t", " person")]))
    by (vm_compute; reflexivity).
  split; [exact Hm |]. split; [reflexivity |].
  destruct (substitution_follows_name_order _ _ _ "select * from @t limit @n;" Hm)
    as (_ & _ & Hround & Horder).
  split; [apply (Hround 1%nat); vm_compute; discriminate |].
  destruct (Horder ltac:(vm_compute; reflexivity)) as [_ Hperm].
  split; [apply Hperm; apply perm_swap |].
  split; vm_compute; reflexivity.
Defined.

(** C8, as the specification words it, does not hold for [translateSql]:
    a later rule can bring together what an earlier rule rewrites.  In the
    rule set [a b -> x], [c -> (one space)] no template holds an occurrence
    of any of the patterns and every loop ends; "a c b" is translated to
    "a   b", and "a   b" to "x". *)
Lemma translate_twice_differs :
  not_self_matching [("a b", "x"); ("c", " ")] /\
  translateSql 5 "a c b" [("a b", "x"); ("c", " ")] = Ok "a   b" /\
  translateSql 5 "a   b" [("a b", "x"); ("c", " ")] = Ok "x" /\
  translateSql 5 "a   b" [("a b", "x"); ("c", " ")] <> Ok "a   b".
Proof.
  split; [| repeat split; try (vm_compute; reflexivity); vm_compute; discriminate].
  unfold not_self_matching, no_match.
  repeat constructor;
    (eexists; split; [vm_compute; reflexivity |]);
    repeat constructor; eexists; split; vm_compute; reflexivity.
Qed.

(** C8, amended.  When [searchAndReplace] returns, the string it returns
    holds no further match of its pattern, and [searchAndReplace] with the
    same pattern and template returns that string unchanged.  When
    [translateSql] returns a string in which no pattern of the rule set
    occurs, [translateSql] with the same rule set returns that string
    unchanged. *)
Theorem rewriting_stops_at_a_fixed_point
    (fuel : nat) (sql : string) (pat : list Block.t) (template r : string) :
  searchAndReplace fuel sql pat template = Ok r ->
  no_match r pat
  /\ (forall fuel', searchAndReplace (S fuel') r pat template = Ok r)
  /\ (forall fuel0 fuel' str rules out,
         translateSql fuel0 str rules = Ok out ->
         (forall rule p, In rule rules -> parseSearchPattern (fst rule) = Ok p ->
                         no_match out p) ->
         translateSql (S fuel') out rules = Ok out).
Proof.
  intros H. pose proof (searchAndReplace_no_match _ _ _ _ _ H) as Hno.
  split; [exact Hno |]. split.
  - intros fuel'. now apply searchAndReplace_fixed.
  - intros fuel0 fuel' str rules out Hout Hrules.
    apply translateSql_fixed. apply translateSql_compiles in Hout.
    rewrite Forall_forall in *. intros rule Hin.
    destruct (Hout rule Hin) as (p & Hp). exists p. split; [exact Hp |].
    now apply (Hrules rule).
Qed.

Lemma rewriting_stops_at_a_fixed_point_witness :
  exists pat,
    parseSearchPattern "select top @n * from @t;" = Ok pat /\
    searchAndReplace 3 "SELECT TOP 10 * FROM person;" pat "select * from @t limit @n;"
    = Ok "select * from  person limit  10 ;" /\
    no_match "select * from  person limit  10 ;" pat /\
    searchAndReplace 1 "select * from  person limit  10 ;" pat "select * from @t limit @n;"
    = Ok "select * from  person limit  10 ;".
Proof.
  eexists. split; [vm_compute; reflexivity |].
  assert (H : searchAndReplace 3 "SELECT TOP 10 * FROM person;"
                [Block.mk "select" false; Block.mk "top" false; Block.mk "@n" true;
                 Block.mk "*" false; Block.mk "from" false; Block.mk "@t" true;
                 Block.mk ";" false]
                "select * from @t limit @n;"
              = Ok "select * from  person limit  10 ;")
    by (vm_compute; reflexivity).
  split; [exact H |].
  destruct (rewriting_stops_at_a_fixed_point _ _ _ _ _ H) as (Hno & Hfix & _).
  split; [exact Hno | apply Hfix].
Defined.

(** * Further properties of the code *)

(** ** Tokenizer: order and number of the tokens *)

Lemma chain_nth (l : list Token.t) :
  forall lo hi i j ti tj,
    chain lo hi l -> (i < j)%nat ->
    nth_error l i = Some ti -> nth_error l j = Some tj ->
    Token.end_ ti <= Token.start tj.
Proof.
  induction l as [| t l IH]; intros lo hi i j ti tj Hch Hij Hi Hj.
  - destruct i; discriminate.
  - destruct Hch as (H1 & H2 & Hch). destruct j as [| j]; [lia |].
    simpl in Hj. destruct i as [| i].
    + simpl in Hi. injection Hi as <-.
      apply nth_error_In in Hj.
      destruct (chain_In _ _ _ _ Hch Hj) as (? & _ & _). assumption.
    + simpl in Hi. apply (IH _ _ i j ti tj Hch); [lia | assumption | assumption].
Qed.

Lemma chain_length (l : list Token.t) :
  forall lo hi, chain lo hi l -> lo + vsize l <= hi.
Proof.
  unfold vsize. induction l as [| t l IH]; intros lo hi Hch.
  - simpl in *. lia.
  - destruct Hch as (H1 & H2 & Hch). apply IH in Hch.
    change (List.length (t :: l)) with (S (List.length l)). lia.
Qed.

(** X1.  There are at most as many tokens as the input has characters; they
    are returned in the order of the input and do not overlap: a token
    ends before any later token starts. *)
Theorem tokenize_tokens_in_order (s : string) (toks : list Token.t) :
  tokenize s = Ok toks ->
  vsize toks <= size s
  /\ forall (i j : nat) (ti tj : Token.t),
       (i < j)%nat ->
       nth_error toks i = Some ti -> nth_error toks j = Some tj ->
       Token.end_ ti <= Token.start tj.
Proof.
  intros H. apply tokenize_chain in H. destruct H as [_ Hch]. split.
  - apply chain_length in Hch. lia.
  - intros i j ti tj Hij Hi Hj. eapply chain_nth; eassumption.
Qed.

Lemma tokenize_tokens_in_order_witness :
  tokenize "a/* x */b" = Ok [Token.mk 0 1 "a"; Token.mk 8 9 "b"] /\
  vsize [Token.mk 0 1 "a"; Token.mk 8 9 "b"] <= size "a/* x */b" /\
  Token.end_ (Token.mk 0 1 "a") <= Token.start (Token.mk 8 9 "b") /\
  (tokenize "x" = Ok [Token.mk 0 1 "x"] /\ vsize [Token.mk 0 1 "x"] <= size "x").
Proof.
  assert (H : tokenize "a/* x */b" = Ok [Token.mk 0 1 "a"; Token.mk 8 9 "b"])
    by (vm_compute; reflexivity).
  assert (H1 : tokenize "x" = Ok [Token.mk 0 1 "x"]) by (vm_compute; reflexivity).
  split; [exact H |].
  destruct (tokenize_tokens_in_order _ _ H) as [Hcount Horder].
  split; [exact Hcount |].
  split; [apply (Horder 0%nat 1%nat); [lia | reflexivity | reflexivity] |].
  split; [exact H1 | exact (proj1 (tokenize_tokens_in_order _ _ H1))].
Defined.

(** ** Tokenizer: when it returns and when it throws *)

(** X2.  [tokenize] returns on every input whose last character is neither
    '-' nor '/'. *)
Theorem tokenize_returns_without_trailing_mark (s : string) :
  (forall ch, String.get (String.length s - 1) s = Some ch ->
              ch <> "-"%char /\ ch <> "/"%char) ->
  exists toks, tokenize s = Ok toks.
Proof. apply tokenize_returns. Qed.

Lemma tokenize_returns_without_trailing_mark_witness :
  exists toks, tokenize "a - b / c" = Ok toks.
Proof.
  apply tokenize_returns_without_trailing_mark.
  intros ch H. vm_compute in H. injection H as <-. split; discriminate.
Defined.

(** The body of the loop at [cursor]: it throws when the character is
    '-' or '/', is the last one, and is met outside a comment; it returns
    otherwise. *)
Lemma tokenize_body_throws_or_returns (sql : string) (cursor : size_t)
    (st : tokenizer) (ch : ascii) :
  start st <= cursor ->
  String.get (N.to_nat cursor) sql = Some ch ->
  if negb (commentType1 st) && negb (commentType2 st)
     && ((ch =? "-")%char || (ch =? "/")%char) && (cursor + 1 =? size sql)
  then tokenize_body sql cursor st = Throw out_of_range
  else exists st', tokenize_body sql cursor st = Ok st'.
Proof.
  intros Hs Hget. pose proof (get_Some_lt _ _ _ Hget) as Hlt.
  assert (Hc : cursor < size sql) by (unfold size; lia).
  assert (Hguard : (cursor <? size sql) = true) by (now apply N.ltb_lt).
  assert (Hpend : exists toks, push_pending sql (tokens st) (start st) cursor = Ok toks).
  { unfold push_pending. destruct (start st <? cursor); [| eauto].
    rewrite substr_in_range by lia. simpl. eauto. }
  assert (Hnext : size sql <= cursor + 1 -> at_ sql (cursor + 1) = Throw out_of_range).
  { intros H. unfold at_. destruct (cursor + 1 <? size sql) eqn:E; [| reflexivity].
    apply N.ltb_lt in E. lia. }
  unfold tokenize_body. rewrite (at_get _ _ _ Hget). simpl.
  destruct (commentType1 st); simpl.
  { destruct (ch =? newline)%char; eauto. }
  destruct (commentType2 st); simpl.
  { destruct (and_at_returns sql ch "/" "*" (0 <? cursor) (cursor - 1)) as [b ->].
    - intros _ H. apply N.ltb_lt in H. lia.
    - simpl. destruct b; eauto. }
  destruct Hpend as [toks Hpend].
  destruct (cursor + 1 =? size sql) eqn:Elast.
  - apply N.eqb_eq in Elast.
    destruct (ch =? "-")%char eqn:Ed; simpl.
    + apply Ascii.eqb_eq in Ed. subst ch. simpl. rewrite Hpend. simpl.
      unfold and_at. simpl. rewrite Hguard, Hnext by lia. reflexivity.
    + destruct (ch =? "/")%char eqn:Esl; simpl.
      * apply Ascii.eqb_eq in Esl. subst ch. simpl. rewrite Hpend. simpl.
        unfold and_at. simpl. rewrite Hguard, Hnext by lia. reflexivity.
      * destruct (negb (isalnum ch) && negb (ch =? "_")%char && negb (ch =? "@")%char);
          [| eauto].
        rewrite Hpend. simpl. unfold and_at. rewrite Ed, Esl. simpl.
        destruct (negb (isspace ch)); [| eauto].
        rewrite substr_in_range by lia. simpl. eauto.
  - apply N.eqb_neq in Elast. rewrite andb_false_r.
    destruct (negb (isalnum ch) && negb (ch =? "_")%char && negb (ch =? "@")%char);
      [| eauto].
    rewrite Hpend. simpl.
    destruct (and_at_returns sql ch "-" "-" (cursor <? size sql) (cursor + 1)) as [b ->];
      [intros _ _; lia |].
    simpl. destruct b; [eauto |].
    destruct (and_at_returns sql ch "/" "*" (cursor <? size sql) (cursor + 1)) as [b ->];
      [intros _ _; lia |].
    simpl. destruct b; [eauto |].
    destruct (negb (isspace ch)); [| eauto].
    rewrite substr_in_range by lia. simpl. eauto.
Qed.

Lemma tokenize_loop_before_last (sql : string) (n : nat) :
  forall cursor st,
    N.of_nat n + cursor < size sql -> tokenizer_inv sql cursor st ->
    exists st', tokenize_loop sql n cursor st = Ok st'
                /\ tokenizer_inv sql (cursor + N.of_nat n) st'.
Proof.
  induction n as [| n IH]; intros cursor st Hn Hinv.
  - exists st. split; [reflexivity |]. now rewrite N.add_0_r.
  - destruct (get_in_range sql (N.to_nat cursor)) as [ch Hch]; [unfold size in Hn; lia |].
    pose proof (tokenize_body_throws_or_returns sql cursor st ch
                  (inv_start _ _ _ Hinv) Hch) as Hbody.
    replace (cursor + 1 =? size sql) with false in Hbody
      by (symmetry; apply N.eqb_neq; lia).
    rewrite andb_false_r in Hbody. destruct Hbody as [st1 Hst1].
    assert (Hinv1 : tokenizer_inv sql (cursor + 1) st1)
      by (apply (tokenize_body_inv sql cursor st st1); [lia | exact Hinv | exact Hst1]).
    destruct (IH (cursor + 1) st1) as (st' & Hst' & Hinv'); [lia | exact Hinv1 |].
    exists st'. split.
    + simpl. rewrite Hst1. simpl. exact Hst'.
    + replace (cursor + N.of_nat (S n)) with (cursor + 1 + N.of_nat n) by lia.
      exact Hinv'.
Qed.

(** X3.  [tokenize] throws exactly when the last character of the input is
    '-' or '/' and the scan, having returned on all the characters before
    it, meets it outside a comment; the exception is [std::out_of_range]. *)
Theorem tokenize_throws_iff (s : string) (e : exn) :
  tokenize s = Throw e <->
  e = out_of_range /\
  exists st ch,
    tokenize_loop s (String.length s - 1) 0 (mkTokenizer [] 0 false false) = Ok st /\
    String.get (String.length s - 1) s = Some ch /\
    (ch = "-"%char \/ ch = "/"%char) /\
    commentType1 st = false /\ commentType2 st = false.
Proof.
  assert (Hinit : tokenizer_inv s 0 (mkTokenizer [] 0 false false))
    by (constructor; simpl; [lia | constructor | lia]).
  destruct (String.length s) as [| n] eqn:Hlen.
  { assert (Hs : s = EmptyString) by (destruct s; [reflexivity | discriminate]).
    subst s. split; [discriminate |].
    intros (_ & st & ch & _ & Hget & _). discriminate. }
  replace (S n - 1)%nat with n by lia.
  destruct (tokenize_loop_before_last s n 0 (mkTokenizer [] 0 false false))
    as (st & Hst & Hinv); [unfold size; lia | exact Hinit |].
  destruct (get_in_range s n) as [ch Hch]; [lia |].
  assert (Hrun : tokenize s
                 = (st' <- tokenize_body s (N.of_nat n) st ;;
                    push_pending s (tokens st') (start st') (size s))).
  { unfold tokenize. rewrite Hlen. replace (S n) with (n + 1)%nat by lia.
    rewrite tokenize_loop_app, Hst. cbn [bind tokenize_loop].
    replace (0 + N.of_nat n) with (N.of_nat n) by lia.
    destruct (tokenize_body s (N.of_nat n) st); reflexivity. }
  pose proof (tokenize_body_throws_or_returns s (N.of_nat n) st ch) as Hbody.
  rewrite Nat2N.id in Hbody.
  specialize (Hbody ltac:(pose proof (inv_start _ _ _ Hinv); lia) Hch).
  replace (N.of_nat n + 1 =? size s) with true in Hbody
    by (symmetry; apply N.eqb_eq; unfold size; lia).
  rewrite andb_true_r in Hbody.
  destruct (negb (commentType1 st) && negb (commentType2 st)
            && ((ch =? "-")%char || (ch =? "/")%char)) eqn:Hcond.
  - rewrite Hrun, Hbody. cbn [bind]. split.
    + intros H. injection H as <-. split; [reflexivity |].
      exists st, ch.
      apply andb_prop in Hcond. destruct Hcond as [Hcom Hch'].
      apply andb_prop in Hcom. destruct Hcom as [H1 H2].
      apply negb_true_iff in H1, H2. apply orb_prop in Hch'.
      repeat split; try assumption.
      destruct Hch' as [Hd | Hd]; apply Ascii.eqb_eq in Hd; auto.
    + intros [-> _]. reflexivity.
  - destruct Hbody as [st1 Hst1]. rewrite Hrun, Hst1. cbn [bind].
    assert (Hinv1 : tokenizer_inv s (N.of_nat n + 1) st1)
      by (apply (tokenize_body_inv s (N.of_nat n) st st1);
          [unfold size; lia | replace (N.of_nat n) with (0 + N.of_nat n) by lia;
                              exact Hinv | exact Hst1]).
    assert (Hpush : exists toks, push_pending s (tokens st1) (start st1) (size s) = Ok toks).
    { unfold push_pending. destruct (start st1 <? size s); [| eauto].
      rewrite substr_in_range
        by (pose proof (inv_start _ _ _ Hinv1); unfold size in *; lia).
      simpl. eauto. }
    destruct Hpush as [toks ->]. split; [discriminate |].
    intros (_ & st0 & ch0 & Hst0 & Hch0 & Hmark & Hc1 & Hc2).
    rewrite Hst in Hst0. injection Hst0 as <-.
    rewrite Hch in Hch0. injection Hch0 as <-.
    rewrite Hc1, Hc2 in Hcond. simpl in Hcond.
    destruct Hmark as [-> | ->]; discriminate.
Qed.

(** ** Tokenizer: comments that are closed *)

(** X4.  From the two dashes of a line comment to the next line feed the scan
    pushes no token but the word that was pending before the comment, and
    it resumes behind the line feed, outside a comment. *)
Theorem tokenize_skips_closed_line_comment (sql : string) (cursor : size_t)
    (k : nat) (toks : list Token.t) (start0 : size_t) :
  String.get (N.to_nat cursor) sql = Some "-"%char ->
  String.get (N.to_nat cursor + 1) sql = Some "-"%char ->
  (forall i, (i < k)%nat ->
             exists ch, String.get (N.to_nat cursor + 1 + i) sql = Some ch
                        /\ ch <> newline) ->
  String.get (N.to_nat cursor + 1 + k) sql = Some newline ->
  tokenize_loop sql (1 + (k + 1)) cursor (mkTokenizer toks start0 false false) =
  (toks' <- push_pending sql toks start0 cursor ;;
   Ok (mkTokenizer toks' (cursor + N.of_nat k + 2) false false)).
Proof. apply line_comment_leaves_no_token. Qed.

Lemma tokenize_skips_closed_line_comment_witness :
  tokenize_loop ("ab--x" ++ nl ++ "c")%string (1 + (2 + 1)) 2
    (mkTokenizer [] 0 false false)
  = Ok (mkTokenizer [Token.mk 0 2 "ab"] 6 false false).
Proof.
  rewrite (tokenize_skips_closed_line_comment
             ("ab--x" ++ nl ++ "c")%string 2 2 [] 0).
  - vm_compute; reflexivity.
  - vm_compute; reflexivity.
  - vm_compute; reflexivity.
  - intros i Hi. destruct i as [| [| i]]; [| | lia];
      eexists; (split; [vm_compute; reflexivity | discriminate]).
  - vm_compute; reflexivity.
Defined.

(** X5.  From the mark that opens a block comment to the first '/' that stands
    behind a '*' the scan pushes no token but the word that was pending
    before the comment, and it resumes behind that '/', outside a
    comment. *)
Theorem tokenize_skips_closed_block_comment (sql : string) (cursor : size_t)
    (k : nat) (toks : list Token.t) (start0 : size_t) :
  String.get (N.to_nat cursor) sql = Some "/"%char ->
  String.get (N.to_nat cursor + 1) sql = Some "*"%char ->
  (forall i, (i < k)%nat ->
             exists ch prev,
               String.get (N.to_nat cursor + 1 + i) sql = Some ch /\
               String.get (N.to_nat cursor + i) sql = Some prev /\
               ~ (ch = "/"%char /\ prev = "*"%char)) ->
  String.get (N.to_nat cursor + 1 + k) sql = Some "/"%char ->
  String.get (N.to_nat cursor + k) sql = Some "*"%char ->
  tokenize_loop sql (1 + (k + 1)) cursor (mkTokenizer toks start0 false false) =
  (toks' <- push_pending sql toks start0 cursor ;;
   Ok (mkTokenizer toks' (cursor + N.of_nat k + 2) false false)).
Proof. apply block_comment_leaves_no_token. Qed.

Lemma tokenize_skips_closed_block_comment_witness :
  tokenize_loop "ab/*x*/c" (1 + (3 + 1)) 2 (mkTokenizer [] 0 false false)
  = Ok (mkTokenizer [Token.mk 0 2 "ab"] 7 false false).
Proof.
  rewrite (tokenize_skips_closed_block_comment "ab/*x*/c" 2 3 [] 0).
  - vm_compute; reflexivity.
  - vm_compute; reflexivity.
  - vm_compute; reflexivity.
  - intros i Hi. destruct i as [| [| [| i]]]; [| | | lia];
      do 2 eexists;
      (split; [vm_compute; reflexivity |
               split; [vm_compute; reflexivity | intros [H1 H2]; discriminate]]).
  - vm_compute; reflexivity.
  - vm_compute; reflexivity.
Defined.

(** ** Tokenizer: the shape of the tokens *)

Lemma not_word_char (ch : ascii) :
  negb (isalnum ch) && negb (ch =? "_")%char && negb (ch =? "@")%char
  = negb (is_word_char ch).
Proof. unfold is_word_char. now rewrite !negb_orb. Qed.

Lemma substring_step (s : string) :
  forall n m ch,
    String.get n s = Some ch ->
    String.substring n (S m) s = String ch (String.substring (S n) m s).
Proof.
  induction s as [| c s IH]; intros n m ch H; [destruct n; discriminate |].
  destruct n as [| n].
  - simpl in H. injection H as ->. reflexivity.
  - simpl in H. change (String.substring (S n) (S m) (String c s))
      with (String.substring n (S m) s).
    rewrite (IH n m ch H). reflexivity.
Qed.

Lemma substring_zero (s : string) :
  forall n, String.substring n 0 s = EmptyString.
Proof.
  induction s as [| c s IH]; intros n; destruct n; try reflexivity.
  apply IH.
Qed.

Lemma substring_all_word (s : string) (m : nat) :
  forall n,
    (forall i, (n <= i < n + m)%nat ->
               exists ch, String.get i s = Some ch /\ is_word_char ch = true) ->
    all_word (String.substring n m s) = true.
Proof.
  induction m as [| m IH]; intros n H.
  - now rewrite substring_zero.
  - destruct (H n) as (ch & Hch & Hw); [lia |].
    rewrite (substring_step s n m ch Hch). simpl. rewrite Hw. simpl.
    apply IH. intros i Hi. apply H. lia.
Qed.

Lemma push_pending_shape (sql : string) (toks toks' : list Token.t)
    (start0 cursor : size_t) :
  Forall word_or_symbol toks ->
  (forall i, (N.to_nat start0 <= i < N.to_nat cursor)%nat ->
             exists ch, String.get i sql = Some ch /\ is_word_char ch = true) ->
  cursor <= size sql ->
  push_pending sql toks start0 cursor = Ok toks' ->
  Forall word_or_symbol toks'.
Proof.
  intros Hall Hrun Hc. unfold push_pending.
  destruct (start0 <? cursor) eqn:E; intros H; [| inv_Ok H; exact Hall].
  apply N.ltb_lt in E. inv_bind H. inv_Ok H.
  apply substr_Ok in E0. destruct E0 as [_ ->].
  apply Forall_app. split; [exact Hall |]. constructor; [| constructor].
  left. simpl.
  replace (N.to_nat (N.min (cursor - start0) (size sql - start0)))
    with (S (N.to_nat cursor - N.to_nat start0 - 1)) by lia.
  split.
  - destruct (Hrun (N.to_nat start0)) as (ch & Hch & _); [lia |].
    rewrite (substring_step _ _ _ _ Hch). discriminate.
  - apply substring_all_word. intros i Hi. apply Hrun. lia.
Qed.

Lemma tokenize_body_shape (sql : string) (cursor : size_t) (st st' : tokenizer) :
  cursor < size sql ->
  shape_inv sql cursor st ->
  tokenize_body sql cursor st = Ok st' ->
  shape_inv sql (cursor + 1) st'.
Proof.
  intros Hc [Hall Hrun] H. unfold tokenize_body in H.
  inv_bind H. rename x into ch.
  assert (Hget : String.get (N.to_nat cursor) sql = Some ch).
  { unfold at_ in E. destruct (cursor <? size sql); [| discriminate].
    destruct (String.get (N.to_nat cursor) sql); [now inv_Ok E | discriminate]. }
  assert (Hfresh : forall toks c1 c2,
             Forall word_or_symbol toks ->
             shape_inv sql (cursor + 1) (mkTokenizer toks (cursor + 1) c1 c2)).
  { intros toks c1 c2 Htoks. split; [exact Htoks |]. simpl. intros _ _ i Hi. lia. }
  destruct (commentType1 st) eqn:Hc1.
  { destruct (ch =? newline)%char; inv_Ok H; [now apply Hfresh |].
    split; [exact Hall |]. rewrite Hc1. discriminate. }
  destruct (commentType2 st) eqn:Hc2.
  { inv_bind H. destruct x; inv_Ok H; [now apply Hfresh |].
    split; [exact Hall |]. rewrite Hc2. discriminate. }
  specialize (Hrun eq_refl eq_refl).
  rewrite not_word_char in H. destruct (is_word_char ch) eqn:Hw; simpl in H.
  - inv_Ok H. split; [exact Hall |]. intros _ _ i Hi.
    destruct (Nat.eq_dec i (N.to_nat cursor)) as [-> | Hne]; [eauto |].
    apply Hrun. lia.
  - inv_bind H. rename x into toks.
    assert (Htoks : Forall word_or_symbol toks)
      by (eapply push_pending_shape; try eassumption; lia).
    inv_bind H. destruct x; [inv_Ok H; now apply Hfresh |].
    inv_bind H. destruct x; [inv_Ok H; now apply Hfresh |].
    destruct (isspace ch) eqn:Hsp; simpl in H; [inv_Ok H; now apply Hfresh |].
    inv_bind H. inv_Ok H. apply Hfresh.
    apply Forall_app. split; [exact Htoks |]. constructor; [| constructor].
    right. exists ch. simpl. repeat split; try assumption.
    apply substr_Ok in E3. destruct E3 as [_ ->].
    replace (N.to_nat (N.min 1 (size sql - cursor))) with 1%nat by lia.
    rewrite (substring_step _ _ _ _ Hget). now rewrite substring_zero.
Qed.

Lemma tokenize_loop_shape (sql : string) (n : nat) :
  forall cursor st st',
    N.of_nat n + cursor = size sql ->
    shape_inv sql cursor st ->
    tokenize_loop sql n cursor st = Ok st' ->
    shape_inv sql (size sql) st'.
Proof.
  induction n as [| n IH]; intros cursor st st' Hn Hinv H; simpl in H.
  - inv_Ok H. replace (size sql) with cursor by lia. exact Hinv.
  - inv_bind H. apply (IH (cursor + 1) x st'); [lia | | exact H].
    apply (tokenize_body_shape sql cursor st x); [lia | exact Hinv | exact E].
Qed.

(** X6.  Every token but the last is a non-empty run of word characters
    (letters, digits, '_', '@') or one character that is neither a word
    character nor white space; so is the last token when the scan ends
    outside a comment. *)
Theorem tokenize_tokens_are_words_or_symbols (s : string) (toks : list Token.t) :
  tokenize s = Ok toks ->
  exists st,
    tokenize_loop s (String.length s) 0 (mkTokenizer [] 0 false false) = Ok st /\
    Forall word_or_symbol (removelast toks) /\
    (commentType1 st = false -> commentType2 st = false ->
     Forall word_or_symbol toks).
Proof.
  unfold tokenize. intros H. inv_bind H. rename x into st. exists st.
  split; [exact E |].
  assert (Hshape : shape_inv s (size s) st).
  { apply (tokenize_loop_shape s (String.length s) 0
             (mkTokenizer [] 0 false false) st); [unfold size; lia | | exact E].
    split; [constructor |]. simpl. intros _ _ i Hi. lia. }
  destruct Hshape as [Hall Hrun]. split.
  - unfold push_pending in H. destruct (start st <? size s).
    + inv_bind H. inv_Ok H. now rewrite removelast_last.
    + inv_Ok H. clear - Hall. induction Hall as [| t l Ht Hl IH]; [constructor |].
      destruct l as [| t' l]; [constructor |].
      change (removelast (t :: t' :: l)) with (t :: removelast (t' :: l)).
      constructor; assumption.
  - intros Hc1 Hc2. eapply push_pending_shape; try eassumption; [| lia].
    now apply Hrun.
Qed.

Lemma tokenize_tokens_are_words_or_symbols_witness :
  exists toks,
    tokenize "SELECT a_1, @b FROM t -- c" = Ok toks /\
    Forall word_or_symbol (removelast toks).
Proof.
  eexists. split; [vm_compute; reflexivity |].
  destruct (tokenize_tokens_are_words_or_symbols "SELECT a_1, @b FROM t -- c" _
              ltac:(vm_compute; reflexivity)) as (st & _ & H & _).
  exact H.
Defined.

(** ** Tokenizer: lower case keeps the tokens in place *)

Lemma tolower_classes (ch : ascii) :
  isalnum (tolower ch) = isalnum ch /\
  isspace (tolower ch) = isspace ch /\
  (tolower ch =? newline)%char = (ch =? newline)%char /\
  (tolower ch =? "/")%char = (ch =? "/")%char /\
  (tolower ch =? "*")%char = (ch =? "*")%char /\
  (tolower ch =? "-")%char = (ch =? "-")%char /\
  (tolower ch =? "_")%char = (ch =? "_")%char /\
  (tolower ch =? "@")%char = (ch =? "@")%char /\
  tolower (tolower ch) = tolower ch.
Proof.
  destruct ch as [b0 b1 b2 b3 b4 b5 b6 b7].
  destruct b0, b1, b2, b3, b4, b5, b6, b7; vm_compute; repeat split.
Qed.

Lemma get_toLowerCase (s : string) :
  forall n, String.get n (toLowerCase s) = option_map tolower (String.get n s).
Proof.
  induction s as [| c s IH]; intros n; [reflexivity |].
  destruct n as [| n]; [reflexivity | apply IH].
Qed.

Lemma substring_toLowerCase (s : string) :
  forall n m,
    String.substring n m (toLowerCase s) = toLowerCase (String.substring n m s).
Proof.
  induction s as [| c s IH]; intros n m.
  - destruct n, m; reflexivity.
  - destruct n as [| n].
    + destruct m as [| m]; [reflexivity |]. simpl. f_equal. apply IH.
    + simpl. apply IH.
Qed.

Lemma toLowerCase_idempotent (s : string) :
  toLowerCase (toLowerCase s) = toLowerCase s.
Proof.
  induction s as [| c s IH]; simpl; [reflexivity |].
  rewrite IH. f_equal. apply tolower_classes.
Qed.

Lemma at_toLowerCase (s : string) (pos : size_t) :
  at_ (toLowerCase s) pos = map_outcome tolower (at_ s pos).
Proof.
  unfold at_. rewrite size_toLowerCase, get_toLowerCase.
  destruct (pos <? size s); [| reflexivity].
  destruct (String.get (N.to_nat pos) s); reflexivity.
Qed.

Lemma substr_toLowerCase (s : string) (pos n : size_t) :
  substr (toLowerCase s) pos n = map_outcome toLowerCase (substr s pos n).
Proof.
  unfold substr. rewrite size_toLowerCase, substring_toLowerCase.
  destruct (size s <? pos); reflexivity.
Qed.

Lemma push_pending_toLowerCase (s : string) (toks : list Token.t)
    (start0 cursor : size_t) :
  push_pending (toLowerCase s) (map lower_token toks) start0 cursor
  = map_outcome (map lower_token) (push_pending s toks start0 cursor).
Proof.
  unfold push_pending. destruct (start0 <? cursor); [| reflexivity].
  rewrite substr_toLowerCase.
  destruct (substr s start0 (cursor - start0)); simpl; try reflexivity.
  now rewrite map_app.
Qed.

Lemma and_at_toLowerCase (s : string) (ch c d : ascii) (guard : bool) (pos : size_t) :
  (forall x, (tolower x =? c)%char = (x =? c)%char) ->
  (forall x, (tolower x =? d)%char = (x =? d)%char) ->
  and_at (toLowerCase s) (tolower ch) c guard pos d = and_at s ch c guard pos d.
Proof.
  intros Hc Hd. unfold and_at. rewrite Hc, at_toLowerCase.
  destruct (ch =? c)%char, guard; try reflexivity.
  destruct (at_ s pos); simpl; try reflexivity. now rewrite Hd.
Qed.

Lemma tokenize_body_toLowerCase (s : string) (cursor : size_t) (st : tokenizer) :
  tokenize_body (toLowerCase s) cursor (lower_tokenizer st)
  = map_outcome lower_tokenizer (tokenize_body s cursor st).
Proof.
  unfold tokenize_body. rewrite at_toLowerCase, size_toLowerCase.
  destruct (at_ s cursor) as [ch | e | |]; simpl; try reflexivity.
  destruct (tolower_classes ch)
    as (Halnum & Hspace & Hnl & _ & _ & _ & Hus & Hat & _).
  assert (Hslash : forall x, (tolower x =? "/")%char = (x =? "/")%char)
    by (intros x; apply tolower_classes).
  assert (Hstar : forall x, (tolower x =? "*")%char = (x =? "*")%char)
    by (intros x; apply tolower_classes).
  assert (Hdash : forall x, (tolower x =? "-")%char = (x =? "-")%char)
    by (intros x; apply tolower_classes).
  rewrite Halnum, Hspace, Hnl, Hus, Hat.
  rewrite !and_at_toLowerCase by assumption.
  destruct (commentType1 st).
  { destruct (ch =? newline)%char; reflexivity. }
  destruct (commentType2 st).
  { destruct (and_at s ch "/" (0 <? cursor) (cursor - 1) "*") as [[|] | e | |];
      reflexivity. }
  destruct (negb (isalnum ch) && negb (ch =? "_")%char && negb (ch =? "@")%char);
    [| reflexivity].
  rewrite push_pending_toLowerCase.
  destruct (push_pending s (tokens st) (start st) cursor) as [toks | e | |];
    simpl; try reflexivity.
  destruct (and_at s ch "-" (cursor <? size s) (cursor + 1) "-") as [[|] | e | |];
    simpl; try reflexivity.
  destruct (and_at s ch "/" (cursor <? size s) (cursor + 1) "*") as [[|] | e | |];
    simpl; try reflexivity.
  destruct (negb (isspace ch)); [| reflexivity].
  rewrite substr_toLowerCase.
  destruct (substr s cursor 1); simpl; try reflexivity.
  unfold lower_tokenizer. simpl. now rewrite map_app.
Qed.

Lemma tokenize_loop_toLowerCase (s : string) (n : nat) :
  forall cursor st,
    tokenize_loop (toLowerCase s) n cursor (lower_tokenizer st)
    = map_outcome lower_tokenizer (tokenize_loop s n cursor st).
Proof.
  induction n as [| n IH]; intros cursor st; simpl; [reflexivity |].
  rewrite tokenize_body_toLowerCase.
  destruct (tokenize_body s cursor st); simpl; try reflexivity. apply IH.
Qed.

(** X7.  Lower case does not move a token: the tokens of the lower-cased input
    are the tokens of the input, at the same offsets, with their texts in
    lower case, and the lower-cased input is tokenized when the input
    is. *)
Theorem tokenize_toLowerCase (s : string) :
  tokenize (toLowerCase s) = map_outcome (map lower_token) (tokenize s).
Proof.
  unfold tokenize. rewrite length_toLowerCase, size_toLowerCase.
  change (mkTokenizer [] 0 false false)
    with (lower_tokenizer (mkTokenizer [] 0 false false)) at 1.
  rewrite tokenize_loop_toLowerCase.
  destruct (tokenize_loop s (String.length s) 0 (mkTokenizer [] 0 false false));
    simpl; try reflexivity.
  apply push_pending_toLowerCase.
Qed.

(** ** Pattern parser: the blocks it returns *)

Lemma to_block_text (t : Token.t) : Block.text (to_block t) = Token.text t.
Proof.
  unfold to_block. simpl.
  destruct ((1 <? size (Token.text t))
            && match String.get 0 (Token.text t) with
               | Some ch => (ch =? "@")%char
               | None => false
               end); reflexivity.
Qed.

Lemma to_block_isVariable (t : Token.t) :
  Block.isVariable (to_block t) = true <-> names_variable (Token.text t).
Proof.
  unfold to_block, names_variable. cbn [Block.of_token Block.text].
  destruct (Token.text t) as [| c0 [| c1 rest]].
  - split; [discriminate | intros (ch & r & H); discriminate].
  - split; [discriminate | intros (ch & r & H); discriminate].
  - assert (Hsz : (1 <? size (String c0 (String c1 rest))) = true)
      by (apply N.ltb_lt; unfold size;
          change (String.length (String c0 (String c1 rest)))
            with (S (S (String.length rest))); lia).
    rewrite Hsz. cbn [String.get andb].
    destruct (c0 =? "@")%char eqn:E; cbn [Block.isVariable].
    + apply Ascii.eqb_eq in E. subst c0. split; [eauto | reflexivity].
    + apply Ascii.eqb_neq in E. split; [discriminate |].
      intros (ch & r & H). injection H as H _. contradiction.
Qed.

Lemma map_to_block_text (toks : list Token.t) :
  map Block.text (map to_block toks) = map Token.text toks.
Proof.
  induction toks as [| t toks IH]; simpl; [reflexivity |].
  now rewrite to_block_text, IH.
Qed.

(** X8.  The blocks of a compiled pattern stand for the tokens of the
    lower-cased pattern text, one for one and with the same texts; a block
    is a variable exactly when its text is '@' followed by at least one
    more character; there is at least one block, and neither the first nor
    the last block is a variable. *)
Theorem parseSearchPattern_blocks (pattern : string) (pat : list Block.t) :
  parseSearchPattern pattern = Ok pat ->
  (exists toks,
      tokenize (toLowerCase pattern) = Ok toks /\
      map Block.text pat = map Token.text toks)
  /\ Forall (fun b => Block.isVariable b = true <-> names_variable (Block.text b)) pat
  /\ pat <> []
  /\ (forall d, Block.isVariable (List.hd d pat) = false
                /\ Block.isVariable (List.last pat d) = false).
Proof.
  intros H. rewrite parseSearchPattern_outcome in H.
  destruct (tokenize (toLowerCase pattern)) as [[| t ts] | e | |] eqn:Htoks;
    try discriminate.
  destruct (Block.isVariable (to_block t)
            || Block.isVariable (to_block (List.last ts t))) eqn:Hvar;
    [discriminate |].
  inv_Ok H. apply orb_false_elim in Hvar. destruct Hvar as [Hfirst Hlast].
  repeat split.
  - exists (t :: ts). split; [reflexivity |].
    apply (map_to_block_text (t :: ts)).
  - apply Forall_forall. intros b Hb.
    change (In b (map to_block (t :: ts))) in Hb. apply in_map_iff in Hb.
    destruct Hb as (t' & <- & _). rewrite to_block_text. apply to_block_isVariable.
  - discriminate.
  - exact Hfirst.
  - change (Block.isVariable (List.last (to_block t :: map to_block ts) d) = false).
    rewrite last_cons, last_map. exact Hlast.
Qed.

Lemma parseSearchPattern_blocks_witness :
  exists pat,
    parseSearchPattern "a = @x and" = Ok pat /\
    map Block.text pat = ["a"; "="; "@x"; "and"] /\ pat <> [].
Proof.
  eexists. split; [vm_compute; reflexivity |].
  destruct (parseSearchPattern_blocks "a = @x and" _ ltac:(vm_compute; reflexivity))
    as (_ & _ & Hne & _).
  split; [reflexivity | exact Hne].
Defined.

(** X9.  The texts of the blocks of a compiled pattern are in lower case, the
    names of the variables included: lower-casing a text changes nothing. *)
Theorem parseSearchPattern_blocks_lower_case (pattern : string) (pat : list Block.t) :
  parseSearchPattern pattern = Ok pat ->
  Forall (fun b => toLowerCase (Block.text b) = Block.text b) pat.
Proof.
  intros H. apply parseSearchPattern_Ok in H.
  destruct H as (toks & _ & _ & Htoks & -> & _).
  apply tokenize_chain in Htoks. destruct Htoks as [Hsl _].
  apply Forall_forall. intros b Hb. apply in_map_iff in Hb.
  destruct Hb as (t & <- & Ht). rewrite to_block_text.
  rewrite Forall_forall in Hsl. destruct (Hsl t Ht) as (_ & _ & ->).
  now rewrite <- substring_toLowerCase, toLowerCase_idempotent.
Qed.

Lemma parseSearchPattern_blocks_lower_case_witness :
  exists pat,
    parseSearchPattern "SELECT @Cols FROM" = Ok pat /\
    map Block.text pat = ["select"; "@cols"; "from"] /\
    Forall (fun b => toLowerCase (Block.text b) = Block.text b) pat.
Proof.
  eexists. split; [vm_compute; reflexivity |]. split; [reflexivity |].
  apply (parseSearchPattern_blocks_lower_case "SELECT @Cols FROM").
  vm_compute; reflexivity.
Defined.

(** X10.  How [parseSearchPattern] ends, by the tokens of the lower-cased
    pattern text: it throws the pattern error, whose message ends with the
    pattern text as given, exactly when there are tokens and the first or
    the last of them names a variable; it reads outside the vector exactly
    when there is no token; and it throws any other exception exactly when
    the tokenizer throws it. *)
Theorem parseSearchPattern_failures (pattern : string) :
  (forall what,
      parseSearchPattern pattern = Throw (invalid_argument what) <->
      what = ("Error in search pattern: pattern cannot start or end with a variable: "
                ++ pattern)%string /\
      exists t ts,
        tokenize (toLowerCase pattern) = Ok (t :: ts) /\
        (names_variable (Token.text t) \/ names_variable (Token.text (List.last ts t))))
  /\ (parseSearchPattern pattern = Undefined <->
      tokenize (toLowerCase pattern) = Ok [])
  /\ (parseSearchPattern pattern = Throw out_of_range <->
      tokenize (toLowerCase pattern) = Throw out_of_range).
Proof.
  rewrite parseSearchPattern_outcome.
  pose proof (tokenize_returns_or_out_of_range (toLowerCase pattern)) as Hroor.
  destruct (tokenize (toLowerCase pattern)) as [[| t ts] | [|] | |];
    simpl in Hroor; try contradiction.
  - repeat split; try discriminate; try reflexivity.
    intros (_ & t & ts & H & _). discriminate.
  - assert (Hrejected :
              Block.isVariable (to_block t)
              || Block.isVariable (to_block (List.last ts t)) = true <->
              names_variable (Token.text t)
              \/ names_variable (Token.text (List.last ts t))).
    { rewrite orb_true_iff, !to_block_isVariable. reflexivity. }
    unfold pattern_error.
    destruct (Block.isVariable (to_block t)
              || Block.isVariable (to_block (List.last ts t))).
    + split; [| split; split; discriminate].
      intros what. split.
      * intros H. injection H as <-. split; [reflexivity |].
        exists t, ts. split; [reflexivity |]. now apply Hrejected.
      * intros [-> _]. reflexivity.
    + split; [| split; split; discriminate].
      intros what. split; [discriminate |].
      intros (_ & t' & ts' & Heq & Hv). injection Heq as Ht Hts. subst t' ts'.
      apply Hrejected in Hv. discriminate.
  - repeat split; try discriminate; try reflexivity.
    intros (_ & t & ts & H & _). discriminate.
Qed.

(** ** Matcher: a subject without the first literal *)

Lemma search_loop_without_first (sql : string) (pat : list Block.t)
    (first : Block.t) (toks : list Token.t) (st : matcher) :
  index pat 0 = Ok first -> Block.isVariable first = false ->
  matchCount st = 0 ->
  (forall t, In t toks -> Token.text t <> Block.text first) ->
  search_loop sql pat toks st
  = Ok (MatchedPattern.with_start npos (matchedPattern st)).
Proof.
  intros Hfirst Hlit. revert st.
  induction toks as [| token rest IH]; intros st Hmc Hno; simpl; [reflexivity |].
  unfold search_body. rewrite Hmc, Hfirst. simpl. rewrite Hlit.
  assert (Hne : (Token.text token =? Block.text first)%string = false)
    by (apply String.eqb_neq; apply Hno; now left).
  rewrite Hne. simpl. rewrite IH; [reflexivity | reflexivity |].
  intros t Ht. apply Hno. now right.
Qed.

(** X11.  When no token of the lower-cased subject has the text of the first
    block of the pattern, [search] reports that there is no match and
    binds nothing. *)
Theorem search_without_first_literal (sql : string) (pat : list Block.t)
    (first : Block.t) (toks : list Token.t) :
  index pat 0 = Ok first -> Block.isVariable first = false ->
  tokenize (toLowerCase sql) = Ok toks ->
  (forall t, In t toks -> Token.text t <> Block.text first) ->
  exists m, search sql pat = Ok m
            /\ MatchedPattern.start m = npos
            /\ MatchedPattern.variableToValue m = [].
Proof.
  intros Hfirst Hlit Htoks Hno. unfold search. rewrite Htoks. simpl.
  rewrite (search_loop_without_first sql pat first toks
             (mkMatcher 0 0 [] MatchedPattern.init) Hfirst Hlit eq_refl Hno).
  eexists. repeat split.
Qed.

Lemma search_without_first_literal_witness :
  exists m, search "SELECT a FROM t" [Block.mk "top" false; Block.mk "@n" true;
                                      Block.mk ";" false] = Ok m
            /\ MatchedPattern.start m = npos
            /\ MatchedPattern.variableToValue m = [].
Proof.
  eapply (search_without_first_literal "SELECT a FROM t" _ (Block.mk "top" false)).
  - reflexivity.
  - reflexivity.
  - vm_compute; reflexivity.
  - intros t Ht. simpl in Ht.
    repeat (destruct Ht as [<- | Ht]; [discriminate |]). contradiction.
Defined.

(** ** Matcher: a quote or parenthesis that stays open *)

Lemma track_nesting_keeps_bottom (text bottom : string) (upper : list string) :
  text <> closer bottom ->
  exists upper', track_nesting text (upper ++ [bottom]) = upper' ++ [bottom].
Proof.
  intros Hne. unfold track_nesting.
  destruct upper as [| top upper]; cbn [app top_is tl].
  - unfold closer in Hne. destruct (is_quote bottom) eqn:Hq.
    + apply String.eqb_neq in Hne. rewrite Hne. now exists [].
    + destruct (is_quote text); [now exists [text] |].
      destruct (text =? "(")%string; [now exists [text] |].
      apply String.eqb_neq in Hne. rewrite Hne. now exists [].
  - destruct (is_quote top).
    + destruct (text =? top)%string; [now exists upper | now exists (top :: upper)].
    + destruct (is_quote text); [now exists (text :: top :: upper) |].
      destruct (text =? "(")%string; [now exists (text :: top :: upper) |].
      destruct ((text =? ")")%string && ("(" =? top)%string);
        [now exists upper | now exists (top :: upper)].
Qed.

(** X12.  While a variable is the current block and the nesting stack holds a
    quote or parenthesis that no token still to come closes - the same
    quote for a quote, ')' for anything else - at its bottom, the capture
    does not end: [search] reports that there is no match. *)
Theorem search_loop_left_open (sql : string) (pat : list Block.t)
    (rest : list Token.t) (cur : Block.t) (bottom : string) :
  forall (st : matcher) (upper : list string),
    index pat (matchCount st) = Ok cur -> Block.isVariable cur = true ->
    nestStack st = upper ++ [bottom] ->
    (forall t, In t rest -> Token.text t <> closer bottom) ->
    search_loop sql pat rest st
    = Ok (MatchedPattern.with_start npos (matchedPattern st)).
Proof.
  induction rest as [| token rest IH]; intros st upper Hcur Hvar Hstack Hno; simpl;
    [reflexivity |].
  unfold search_body. rewrite Hcur. simpl. rewrite Hvar, Hstack.
  destruct (track_nesting_keeps_bottom (Token.text token) bottom upper)
    as [upper' Hkeep]; [apply Hno; now left |].
  destruct (upper ++ [bottom]) as [| top stack] eqn:E;
    [destruct upper; discriminate |].
  simpl. rewrite Hkeep.
  rewrite (IH (mkMatcher (matchCount st) (varStart st) (upper' ++ [bottom])
                 (matchedPattern st)) upper'); auto.
  intros t Ht. apply Hno. now right.
Qed.

Lemma search_loop_left_open_witness :
  exists m,
    search_loop "f('a) end" [Block.mk "f" false; Block.mk "(" false;
                             Block.mk "@x" true; Block.mk ")" false]
      [Token.mk 4 5 ")"; Token.mk 6 9 "end"]
      (mkMatcher 2 2 ["'"] (MatchedPattern.mk 0 9 [])) = Ok m
    /\ MatchedPattern.start m = npos.
Proof.
  eexists. split.
  - apply (search_loop_left_open "f('a) end" _ _ (Block.mk "@x" true) "'" _ []).
    + reflexivity.
    + reflexivity.
    + reflexivity.
    + intros t Ht. simpl in Ht.
      repeat (destruct Ht as [<- | Ht]; [discriminate |]). contradiction.
  - reflexivity.
Defined.

(** ** Matcher: where a match starts and ends *)

Lemma advance_anchor (pat : list Block.t) (toks : list Token.t) (first : Block.t)
    (token : Token.t) (mc : size_t) (st : matcher) (m : MatchedPattern.t) (r : flow) :
  In token toks -> starts_at toks first m ->
  advance pat token mc st m = Ok r ->
  match r with
  | Return m' =>
      starts_at toks first m' /\ mc = vsize pat
      /\ MatchedPattern.end_ m' = Token.end_ token
  | Next st' => matchCount st' = mc /\ starts_at toks first (matchedPattern st')
  end.
Proof.
  intros Hin Hstart. unfold advance. destruct (mc =? vsize pat) eqn:E.
  - intros H. inv_Ok H. apply N.eqb_eq in E. auto.
  - intros H. inv_bind H. inv_Ok H. simpl. auto.
Qed.

Lemma search_body_anchor (sql : string) (pat : list Block.t) (toks : list Token.t)
    (first : Block.t) (token : Token.t) (st : matcher) (r : flow) :
  index pat 0 = Ok first -> Block.isVariable first = false ->
  In token toks ->
  (matchCount st <> 0 -> starts_at toks first (matchedPattern st)) ->
  search_body sql pat token st = Ok r ->
  match r with
  | Return m' =>
      starts_at toks first m'
      /\ exists last, index pat (vsize pat - 1) = Ok last
                      /\ Token.text token = Block.text last
                      /\ MatchedPattern.end_ m' = Token.end_ token
  | Next st' => matchCount st' <> 0 -> starts_at toks first (matchedPattern st')
  end.
Proof.
  intros Hfirst Hlit Hin Hinv H. unfold search_body in H.
  inv_bind H. rename x into cur. rename E into Hcur.
  destruct (Block.isVariable cur) eqn:Hvar.
  - assert (Hnz : matchCount st <> 0) by (intros Hz; rewrite Hz in Hcur; congruence).
    specialize (Hinv Hnz). inv_bind H. destruct x.
    + destruct (nestStack st); [| discriminate].
      inv_bind E. rename x into nxt. inv_Ok E. apply String.eqb_eq in E.
      inv_bind H. eapply advance_anchor in H; [| exact Hin | exact Hinv].
      destruct r as [m' | st'].
      * destruct H as (Hs & Hsize & He). split; [exact Hs |].
        exists nxt. replace (vsize pat - 1) with (matchCount st + 1) by lia. auto.
      * intros _. apply H.
    + inv_Ok H. simpl. intros _. exact Hinv.
  - destruct (Token.text token =? Block.text cur)%string eqn:Htext.
    + apply String.eqb_eq in Htext.
      assert (Hstart : starts_at toks first
                         (if matchCount st =? 0
                          then MatchedPattern.with_start (Token.start token)
                                 (matchedPattern st)
                          else matchedPattern st)).
      { destruct (matchCount st =? 0) eqn:Hz.
        - apply N.eqb_eq in Hz. rewrite Hz in Hcur.
          assert (cur = first) by congruence. subst cur.
          exists token. simpl. auto.
        - apply N.eqb_neq in Hz. auto. }
      eapply advance_anchor in H; [| exact Hin | exact Hstart].
      destruct r as [m' | st'].
      * destruct H as (Hs & Hsize & He). split; [exact Hs |].
        exists cur. replace (vsize pat - 1) with (matchCount st) by lia. auto.
      * intros _. apply H.
    + inv_Ok H. simpl. intros Hz. now contradiction Hz.
Qed.

Lemma search_loop_anchor (sql : string) (pat : list Block.t) (toks : list Token.t)
    (first : Block.t) (rest : list Token.t) :
  index pat 0 = Ok first -> Block.isVariable first = false ->
  forall st m,
    incl rest toks ->
    (matchCount st <> 0 -> starts_at toks first (matchedPattern st)) ->
    search_loop sql pat rest st = Ok m ->
    MatchedPattern.start m = npos
    \/ (starts_at toks first m
        /\ exists last t,
             index pat (vsize pat - 1) = Ok last /\ In t toks
             /\ Token.text t = Block.text last
             /\ MatchedPattern.end_ m = Token.end_ t).
Proof.
  intros Hfirst Hlit.
  induction rest as [| token rest IH]; intros st m Hincl Hinv H; simpl in H.
  - inv_Ok H. now left.
  - inv_bind H. rename x into r.
    assert (Hin : In token toks) by (apply Hincl; now left).
    pose proof (search_body_anchor _ _ _ _ _ _ _ Hfirst Hlit Hin Hinv E) as Hr.
    destruct r as [m' | st'].
    + inv_Ok H. right. destruct Hr as (Hs & last & Hl & Ht & He).
      split; [exact Hs |]. exists last, token. auto.
    + apply (IH st' m); [| exact Hr | exact H].
      intros t Ht. apply Hincl. now right.
Qed.

(** X13.  A match of a compiled pattern starts at the start of a token that has
    the text of the first block and ends at the end of a token that has
    the text of the last block. *)
Theorem search_match_spans_first_to_last_literal
    (sql pattern : string) (pat : list Block.t) (m : MatchedPattern.t) :
  parseSearchPattern pattern = Ok pat ->
  search sql pat = Ok m -> MatchedPattern.start m <> npos ->
  exists toks first last tf tl,
    tokenize (toLowerCase sql) = Ok toks /\
    index pat 0 = Ok first /\ index pat (vsize pat - 1) = Ok last /\
    In tf toks /\ Token.text tf = Block.text first /\
    MatchedPattern.start m = Token.start tf /\
    In tl toks /\ Token.text tl = Block.text last /\
    MatchedPattern.end_ m = Token.end_ tl.
Proof.
  intros Hparse Hm Hstart.
  destruct (compiled_first _ (parseSearchPattern_compiled _ _ Hparse))
    as (first & Hfirst & Hlit).
  unfold search in Hm. inv_bind Hm. rename x into toks.
  apply (search_loop_anchor sql pat toks first toks Hfirst Hlit) in Hm;
    [| apply incl_refl | intros Hz; now contradiction Hz].
  destruct Hm as [Hnone | ((tf & Htf & Htext & Hs) & last & tl & Hl & Htl & Htext' & He)];
    [contradiction |].
  exists toks, first, last, tf, tl. repeat split; assumption.
Qed.

Lemma search_match_spans_first_to_last_literal_witness :
  exists m toks tf tl,
    search "x = F((1+2)) END;" [Block.mk "f" false; Block.mk "(" false;
                                Block.mk "@x" true; Block.mk ")" false;
                                Block.mk "end" false] = Ok m /\
    tokenize (toLowerCase "x = F((1+2)) END;") = Ok toks /\
    In tf toks /\ Token.text tf = "f" /\ MatchedPattern.start m = Token.start tf /\
    In tl toks /\ Token.text tl = "end" /\ MatchedPattern.end_ m = Token.end_ tl.
Proof.
  eexists.
  assert (Hm : search "x = F((1+2)) END;"
                 [Block.mk "f" false; Block.mk "(" false; Block.mk "@x" true;
                  Block.mk ")" false; Block.mk "end" false]
               = Ok (MatchedPattern.mk 4 16 [("@x", "(1+2)")]))
    by (vm_compute; reflexivity).
  assert (Hp : parseSearchPattern "f(@x) end"
               = Ok [Block.mk "f" false; Block.mk "(" false; Block.mk "@x" true;
                     Block.mk ")" false; Block.mk "end" false])
    by (vm_compute; reflexivity).
  assert (Hs : MatchedPattern.start (MatchedPattern.mk 4 16 [("@x", "(1+2)")]) <> npos)
    by (simpl; discriminate).
  destruct (search_match_spans_first_to_last_literal _ _ _ _ Hp Hm Hs)
    as (toks & first & last & tf & tl & Ht & Hf & Hl & H1 & H2 & H3 & H4 & H5 & H6).
  exists toks, tf, tl.
  assert (Hf' : Ok first = Ok (Block.mk "f" false)) by (rewrite <- Hf; reflexivity).
  assert (Hl' : Ok last = Ok (Block.mk "end" false)) by (rewrite <- Hl; reflexivity).
  injection Hf' as ->. injection Hl' as ->.
  split; [exact Hm |]. repeat split; assumption.
Defined.

(** ** Matcher: the variables of a match are bound *)

Lemma keys_assign_new (k v : string) (m : StringMap.t) :
  In k (StringMap.keys (StringMap.assign k v m)).
Proof.
  induction m as [| [k1 v1] m IH]; simpl; [now left |].
  destruct (String.compare k k1); simpl; auto.
Qed.

Lemma keys_assign_old (k v k' : string) (m : StringMap.t) :
  In k' (StringMap.keys m) -> In k' (StringMap.keys (StringMap.assign k v m)).
Proof.
  induction m as [| [k1 v1] m IH]; simpl; [contradiction |].
  intros [<- | H]; destruct (String.compare k k1) eqn:E; simpl; auto.
  apply String.compare_eq_iff in E. now left.
Qed.

Lemma In_keys_find (k : string) (m : StringMap.t) :
  In k (StringMap.keys m) -> exists v, StringMap.find k m = Some v.
Proof.
  induction m as [| [k1 v1] m IH]; simpl; [contradiction |].
  intros H. destruct (k =? k1)%string eqn:E; [eauto |].
  destruct H as [<- | H]; [rewrite String.eqb_refl in E; discriminate | auto].
Qed.

Lemma advance_bound (pat : list Block.t) (token : Token.t) (mc : size_t)
    (st : matcher) (m : MatchedPattern.t) (r : flow) :
  bound_before pat mc m ->
  advance pat token mc st m = Ok r ->
  match r with
  | Return m' => bound_before pat (vsize pat) m'
  | Next st' => bound_before pat (matchCount st') (matchedPattern st')
  end.
Proof.
  intros Hb. unfold advance. destruct (mc =? vsize pat) eqn:E.
  - intros H. inv_Ok H. apply N.eqb_eq in E. subst mc. exact Hb.
  - intros H. inv_bind H. inv_Ok H. exact Hb.
Qed.

Lemma search_body_bound (sql : string) (pat : list Block.t) (token : Token.t)
    (st : matcher) (r : flow) :
  bound_before pat (matchCount st) (matchedPattern st) ->
  search_body sql pat token st = Ok r ->
  match r with
  | Return m' => bound_before pat (vsize pat) m'
  | Next st' => bound_before pat (matchCount st') (matchedPattern st')
  end.
Proof.
  intros Hb H. unfold search_body in H.
  inv_bind H. rename x into cur. rename E into Hcur.
  destruct (Block.isVariable cur) eqn:Hvar.
  - inv_bind H. destruct x.
    + inv_bind H. eapply advance_bound; [| exact H].
      intros i prev var Hi Hprev Hlit Hv Hisv. simpl.
      destruct (N.eq_dec (i + 1) (matchCount st)) as [Heq | Hne].
      * rewrite Heq, Hcur in Hv. inv_Ok Hv. apply keys_assign_new.
      * destruct (N.eq_dec i (matchCount st)) as [-> | Hne'].
        -- rewrite Hcur in Hprev. inv_Ok Hprev. congruence.
        -- apply keys_assign_old. apply (Hb i prev var); try assumption. lia.
    + inv_Ok H. exact Hb.
  - destruct (Token.text token =? Block.text cur)%string.
    + eapply advance_bound; [| exact H].
      intros i prev var Hi Hprev Hlit Hv Hisv.
      assert (Hold : In (Block.text var)
                        (StringMap.keys
                           (MatchedPattern.variableToValue (matchedPattern st)))).
      { destruct (N.eq_dec (i + 1) (matchCount st)) as [Heq | Hne].
        - rewrite Heq, Hcur in Hv. inv_Ok Hv. congruence.
        - apply (Hb i prev var); try assumption. lia. }
      destruct (matchCount st =? 0); exact Hold.
    + inv_Ok H. intros i prev var Hi. simpl in Hi. lia.
Qed.

Lemma search_loop_bound (sql : string) (pat : list Block.t) (rest : list Token.t) :
  forall st m,
    bound_before pat (matchCount st) (matchedPattern st) ->
    search_loop sql pat rest st = Ok m ->
    MatchedPattern.start m = npos \/ bound_before pat (vsize pat) m.
Proof.
  induction rest as [| token rest IH]; intros st m Hb H; simpl in H.
  - inv_Ok H. now left.
  - inv_bind H. pose proof (search_body_bound _ _ _ _ _ Hb E) as Hr.
    destruct x as [m' | st']; [inv_Ok H; now right | eapply IH; eassumption].
Qed.

(** X14.  In a match, every variable block that stands behind a literal block
    is bound: the map of the result has a value for its name. *)
Theorem search_binds_variables_behind_literals
    (sql : string) (pat : list Block.t) (m : MatchedPattern.t)
    (i : size_t) (prev var : Block.t) :
  search sql pat = Ok m -> MatchedPattern.start m <> npos ->
  index pat i = Ok prev -> Block.isVariable prev = false ->
  index pat (i + 1) = Ok var -> Block.isVariable var = true ->
  exists v, StringMap.find (Block.text var) (MatchedPattern.variableToValue m) = Some v.
Proof.
  intros Hm Hstart Hprev Hlit Hvar Hisv. unfold search in Hm. inv_bind Hm.
  apply search_loop_bound in Hm.
  - destruct Hm as [Hnone | Hb]; [contradiction |].
    apply In_keys_find. apply (Hb i prev var); try assumption.
    apply index_Ok in Hvar. tauto.
  - intros j p v Hj. simpl in Hj. lia.
Qed.

Lemma search_binds_variables_behind_literals_witness :
  exists m v,
    search "SELECT TOP 10 * FROM person;"
      [Block.mk "select" false; Block.mk "top" false; Block.mk "@n" true;
       Block.mk "*" false; Block.mk "from" false; Block.mk "@t" true;
       Block.mk ";" false] = Ok m /\
    StringMap.find "@t" (MatchedPattern.variableToValue m) = Some v.
Proof.
  eexists.
  assert (Hm : search "SELECT TOP 10 * FROM person;"
                 [Block.mk "select" false; Block.mk "top" false; Block.mk "@n" true;
                  Block.mk "*" false; Block.mk "from" false; Block.mk "@t" true;
                  Block.mk ";" false]
               = Ok (MatchedPattern.mk 0 28 [("@n", " 10 "); ("@t", " person")]))
    by (vm_compute; reflexivity).
  assert (Hs : MatchedPattern.start
                 (MatchedPattern.mk 0 28 [("@n", " 10 "); ("@t", " person")]) <> npos)
    by (simpl; discriminate).
  destruct (search_binds_variables_behind_literals _ _ _ 4
              (Block.mk "from" false) (Block.mk "@t" true) Hm Hs
              eq_refl eq_refl eq_refl eq_refl) as [v Hv].
  exists v. split; [exact Hm | exact Hv].
Defined.

(** ** Matcher: an occurrence that the scan passes over *)

Lemma search_body_literal_mismatch (sql : string) (pat : list Block.t)
    (token : Token.t) (st : matcher) (cur : Block.t) :
  index pat (matchCount st) = Ok cur -> Block.isVariable cur = false ->
  (Token.text token =? Block.text cur)%string = false ->
  search_body sql pat token st
  = Ok (Next (mkMatcher 0 (varStart st) (nestStack st) (matchedPattern st))).
Proof.
  intros Hcur Hlit Hne. unfold search_body. rewrite Hcur. cbn [bind].
  now rewrite Hlit, Hne.
Qed.

Lemma search_body_literal_match (sql : string) (pat : list Block.t)
    (token : Token.t) (st : matcher) (cur blk : Block.t) :
  index pat (matchCount st) = Ok cur -> Block.isVariable cur = false ->
  (Token.text token =? Block.text cur)%string = true ->
  index pat (matchCount st + 1) = Ok blk ->
  search_body sql pat token st
  = Ok (Next (mkMatcher (matchCount st + 1)
                (if Block.isVariable blk then Token.end_ token else varStart st)
                (nestStack st)
                (if matchCount st =? 0
                 then MatchedPattern.with_start (Token.start token) (matchedPattern st)
                 else matchedPattern st))).
Proof.
  intros Hcur Hlit Heq Hblk. unfold search_body. rewrite Hcur. cbn [bind].
  rewrite Hlit, Heq. unfold advance.
  assert (Hlt : matchCount st + 1 < vsize pat) by (apply index_Ok in Hblk; tauto).
  destruct (matchCount st + 1 =? vsize pat) eqn:E;
    [apply N.eqb_eq in E; lia |].
  now rewrite Hblk.
Qed.

(** X15.  After a literal did not match, the scan starts over with the next
    token: the token that did not match is not compared with the first
    block.  So a subject of the three tokens [x x y] holds no match of the
    pattern of the two literals [x y], although its last two tokens are an
    occurrence of it. *)
Theorem search_passes_over_occurrence (sql : string) (x y : string)
    (t1 t2 t3 : Token.t) :
  tokenize (toLowerCase sql) = Ok [t1; t2; t3] ->
  Token.text t1 = x -> Token.text t2 = x -> Token.text t3 = y -> x <> y ->
  exists m, search sql [Block.mk x false; Block.mk y false] = Ok m
            /\ MatchedPattern.start m = npos.
Proof.
  intros Htoks H1 H2 H3 Hxy. unfold search. rewrite Htoks.
  assert (Hyx : (y =? x)%string = false) by (apply String.eqb_neq; congruence).
  assert (Hxy' : (x =? y)%string = false) by (now apply String.eqb_neq).
  cbn [bind search_loop].
  rewrite (search_body_literal_match sql _ t1 _ (Block.mk x false) (Block.mk y false));
    [| reflexivity | reflexivity | simpl; rewrite H1; apply String.eqb_refl | reflexivity].
  cbn [bind].
  rewrite (search_body_literal_mismatch sql _ t2 _ (Block.mk y false));
    [| reflexivity | reflexivity | simpl; now rewrite H2].
  cbn [bind].
  rewrite (search_body_literal_mismatch sql _ t3 _ (Block.mk x false));
    [| reflexivity | reflexivity | simpl; now rewrite H3].
  cbn [bind]. eexists. split; reflexivity.
Qed.

Lemma search_passes_over_occurrence_witness :
  exists m, search "a a b" [Block.mk "a" false; Block.mk "b" false] = Ok m
            /\ MatchedPattern.start m = npos.
Proof.
  apply (search_passes_over_occurrence "a a b" "a" "b"
           (Token.mk 0 1 "a") (Token.mk 2 3 "a") (Token.mk 4 5 "b"));
    try reflexivity.
  discriminate.
Defined.

(** ** Rewriter: the splice of a match *)

Lemma search_offsets (sql : string) (pat : list Block.t) (m : MatchedPattern.t) :
  compiled pat -> search sql pat = Ok m -> MatchedPattern.start m <> npos ->
  MatchedPattern.start m < MatchedPattern.end_ m
  /\ MatchedPattern.end_ m <= size sql.
Proof.
  intros Hpat Hm Hstart. pose proof Hm as Hm0. unfold search in Hm0.
  inv_bind Hm0. rename x into toks.
  destruct (search_found sql pat toks Hpat E) as (m' & Hm' & Hfound).
  rewrite Hm in Hm'. inv_Ok Hm'.
  destruct Hfound as [Hnone | [(first & last & _ & Hlast & Hs & He & Hle) _]];
    [contradiction |].
  apply tokenize_chain in E. destruct E as [_ Hch].
  rewrite size_toLowerCase in Hch.
  destruct (chain_In _ _ _ _ Hch Hlast) as (_ & Hlt & Hhi).
  rewrite Hs, He. lia.
Qed.

Lemma length_append (s1 s2 : string) :
  String.length (s1 ++ s2)%string = (String.length s1 + String.length s2)%nat.
Proof. induction s1 as [| c s1 IH]; simpl; [reflexivity | now rewrite IH]. Qed.

Lemma length_substring (s : string) :
  forall n m, (n + m <= String.length s)%nat ->
              String.length (String.substring n m s) = m.
Proof.
  induction s as [| c s IH]; intros n m H; simpl in H.
  - destruct n, m; simpl; lia.
  - destruct n as [| n].
    + destruct m as [| m]; [reflexivity |]. simpl. rewrite IH; lia.
    + simpl. apply IH. lia.
Qed.

(** X16.  The splice of a match of a compiled pattern stays inside the subject:
    [substr] does not throw, the new subject is the text before the match,
    the replacement and the text behind the match, and its length is that
    of the subject less the match plus the replacement. *)
Theorem splice_replaces_the_match
    (sql pattern : string) (pat : list Block.t) (m : MatchedPattern.t)
    (replacement : string) :
  parseSearchPattern pattern = Ok pat ->
  search sql pat = Ok m -> MatchedPattern.start m <> npos ->
  exists result,
    splice sql m replacement = Ok result /\
    result = (String.substring 0 (N.to_nat (MatchedPattern.start m)) sql
              ++ replacement
              ++ String.substring (N.to_nat (MatchedPattern.end_ m))
                   (N.to_nat (size sql - MatchedPattern.end_ m)) sql)%string /\
    size result + (MatchedPattern.end_ m - MatchedPattern.start m)
    = size sql + size replacement.
Proof.
  intros Hparse Hm Hstart.
  destruct (search_offsets sql pat m (parseSearchPattern_compiled _ _ Hparse) Hm Hstart)
    as [Hlt Hle].
  eexists. split; [| split; [reflexivity |]].
  - unfold splice. rewrite !substr_in_range by lia. cbn [bind].
    unfold sub_sz.
    destruct (MatchedPattern.end_ m <=? size sql) eqn:E;
      [| apply N.leb_gt in E; lia].
    do 4 f_equal; lia.
  - unfold size in *. rewrite !length_append, !length_substring by lia. lia.
Qed.

Lemma splice_replaces_the_match_witness :
  exists m,
    search "x = F((1+2)) END;" [Block.mk "f" false; Block.mk "(" false;
                                Block.mk "@x" true; Block.mk ")" false;
                                Block.mk "end" false] = Ok m /\
    splice "x = F((1+2)) END;" m "g" = Ok "x = g;".
Proof.
  eexists.
  assert (Hm : search "x = F((1+2)) END;"
                 [Block.mk "f" false; Block.mk "(" false; Block.mk "@x" true;
                  Block.mk ")" false; Block.mk "end" false]
               = Ok (MatchedPattern.mk 4 16 [("@x", "(1+2)")]))
    by (vm_compute; reflexivity).
  assert (Hp : parseSearchPattern "f(@x) end"
               = Ok [Block.mk "f" false; Block.mk "(" false; Block.mk "@x" true;
                     Block.mk ")" false; Block.mk "end" false])
    by (vm_compute; reflexivity).
  assert (Hs : MatchedPattern.start (MatchedPattern.mk 4 16 [("@x", "(1+2)")]) <> npos)
    by (simpl; discriminate).
  split; [exact Hm |].
  destruct (splice_replaces_the_match _ _ _ _ "g" Hp Hm Hs) as (r & Hr & -> & _).
  exact Hr.
Defined.

(** ** Rewriter: how a call can end *)

Lemma search_returns_or_tokenize_throws (sql : string) (pat : list Block.t) :
  compiled pat ->
  (exists m, search sql pat = Ok m)
  \/ (search sql pat = Throw out_of_range
      /\ tokenize (toLowerCase sql) = Throw out_of_range).
Proof.
  intros Hpat. pose proof (tokenize_returns_or_out_of_range (toLowerCase sql)) as H.
  destruct (tokenize (toLowerCase sql)) as [toks | [|] | |] eqn:E;
    simpl in H; try contradiction.
  - left. destruct (search_found sql pat toks Hpat E) as (m & Hm & _). eauto.
  - right. split; [| reflexivity]. unfold search. now rewrite E.
Qed.

Lemma replace_loop_ends (pat : list Block.t) (template : string) (fuel : nat) :
  compiled pat ->
  forall s m,
    search s pat = Ok m ->
    match replace_loop fuel s pat template m with
    | Ok r =>
        exists n, (n < fuel)%nat /\ rounds pat template n s r /\ no_match r pat
    | Throw e =>
        e = out_of_range /\
        exists n s', (n <= fuel)%nat /\ rounds pat template n s s'
                     /\ tokenize (toLowerCase s') = Throw out_of_range
    | Undefined => False
    | NoFuel => exists s', rounds pat template fuel s s'
    end.
Proof.
  intros Hpat. induction fuel as [| fuel IH]; intros s m Hm.
  - simpl. exists s. constructor.
  - cbn [replace_loop].
    destruct (MatchedPattern.start m =? npos) eqn:E.
    + apply N.eqb_eq in E. simpl. exists 0%nat. split; [lia |].
      split; [constructor | now exists m].
    + apply N.eqb_neq in E.
      destruct (search_offsets s pat m Hpat Hm E) as [Hlt Hle].
      assert (Hsplice : exists s',
                 splice s m (substitute template (MatchedPattern.variableToValue m))
                 = Ok s').
      { unfold splice. rewrite !substr_in_range by lia. cbn [bind]. eauto. }
      destruct Hsplice as [s' Hs']. cbv zeta. rewrite Hs'. cbn [bind].
      assert (Hround : round pat template s s') by (exists m; auto).
      destruct (search_returns_or_tokenize_throws s' pat Hpat)
        as [[m' Hm'] | [Hthrow Htok]].
      * rewrite Hm'. cbn [bind]. specialize (IH s' m' Hm').
        destruct (replace_loop fuel s' pat template m') as [r | e | |]; simpl in *.
        -- destruct IH as (n & Hn & Hr & Hno). exists (S n).
           split; [lia |]. split; [econstructor; eassumption | exact Hno].
        -- destruct IH as (-> & n & s'' & Hn & Hr & Htok). split; [reflexivity |].
           exists (S n), s''. split; [lia |].
           split; [econstructor; eassumption | exact Htok].
        -- exact IH.
        -- destruct IH as [s'' Hr]. exists s''. econstructor; eassumption.
      * rewrite Hthrow. simpl. split; [reflexivity |].
        exists 1%nat, s'. split; [lia |].
        split; [econstructor; [eassumption | constructor] | exact Htok].
Qed.

(** X17.  How a call of [searchAndReplace] with a compiled pattern ends.
    Every round finds its match inside the subject, so that the [substr]
    of the splice does not throw and the pattern is not read out of
    bounds.  The call returns after fewer rounds than its budget a
    subject without a match; or it throws [std::out_of_range], and then
    the tokenizer throws it on the subject that the rounds so far have
    led to; or the budget is used up by as many rounds. *)
Theorem searchAndReplace_ends
    (fuel : nat) (sql pattern : string) (pat : list Block.t) (template : string) :
  parseSearchPattern pattern = Ok pat ->
  match searchAndReplace fuel sql pat template with
  | Ok r =>
      exists n, (n < fuel)%nat /\ rounds pat template n sql r /\ no_match r pat
  | Throw e =>
      e = out_of_range /\
      exists n s', (n <= fuel)%nat /\ rounds pat template n sql s'
                   /\ tokenize (toLowerCase s') = Throw out_of_range
  | Undefined => False
  | NoFuel => exists s', rounds pat template fuel sql s'
  end.
Proof.
  intros Hparse. pose proof (parseSearchPattern_compiled _ _ Hparse) as Hpat.
  unfold searchAndReplace.
  destruct (search_returns_or_tokenize_throws sql pat Hpat)
    as [[m Hm] | [Hthrow Htok]].
  - rewrite Hm. cbn [bind]. now apply replace_loop_ends.
  - rewrite Hthrow. simpl. split; [reflexivity |].
    exists 0%nat, sql. split; [lia |]. split; [constructor | exact Htok].
Qed.

Lemma searchAndReplace_ends_witness :
  searchAndReplace 3 "x a" [Block.mk "a" false] "-" = Throw out_of_range /\
  round [Block.mk "a" false] "-" "x a" "x -" /\
  exists n s', (n <= 3)%nat /\ rounds [Block.mk "a" false] "-" n "x a" s'
               /\ tokenize (toLowerCase s') = Throw out_of_range.
Proof.
  assert (Hp : parseSearchPattern "a" = Ok [Block.mk "a" false])
    by (vm_compute; reflexivity).
  assert (Hrun : searchAndReplace 3 "x a" [Block.mk "a" false] "-" = Throw out_of_range)
    by (vm_compute; reflexivity).
  split; [exact Hrun |]. split.
  - exists (MatchedPattern.mk 2 3 []).
    split; [vm_compute; reflexivity |].
    split; [simpl; discriminate | vm_compute; reflexivity].
  - pose proof (searchAndReplace_ends 3 "x a" "a" _ "-" Hp) as H.
    rewrite Hrun in H. exact (proj2 H).
Defined.

(** ** Rewriter: rules in sequence *)

(** X18.  Translating with the rules [rules1] followed by [rules2] is
    translating with [rules1] and then, when that returns, translating its
    result with [rules2]. *)
Theorem translateSql_app (fuel : nat) (rules1 rules2 : list (string * string)) :
  forall str,
    translateSql fuel str (rules1 ++ rules2)
    = (result <- translateSql fuel str rules1 ;; translateSql fuel result rules2).
Proof.
  induction rules1 as [| rule rules1 IH]; intros str; simpl; [reflexivity |].
  destruct (parseSearchPattern (fst rule)) as [pat | e | |]; simpl; try reflexivity.
  destruct (searchAndReplace fuel str pat (snd rule)) as [r | e | |]; simpl;
    try reflexivity.
  apply IH.
Qed.

(** ** Rewriter: a loop that does not end *)

(** X20.  The loop of [searchAndReplace] looks for no cycle: when each subject of
    a set holds a match whose splice is again in the set, the loop does not
    end on any of them, whatever the budget. *)
Theorem searchAndReplace_never_stops (pat : list Block.t) (template : string)
    (P : string -> Prop) :
  (forall s, P s ->
             exists m s',
               search s pat = Ok m /\ MatchedPattern.start m <> npos /\
               splice s m (substitute template (MatchedPattern.variableToValue m))
               = Ok s' /\ P s') ->
  forall fuel sql, P sql -> searchAndReplace fuel sql pat template = NoFuel.
Proof.
  intros Hstep.
  assert (Hloop : forall fuel s m,
             P s -> search s pat = Ok m ->
             replace_loop fuel s pat template m = NoFuel).
  { induction fuel as [| fuel IH]; intros s m Hs Hm; simpl; [reflexivity |].
    destruct (Hstep s Hs) as (m0 & s' & Hm0 & Hstart & Hsplice & Hs').
    rewrite Hm in Hm0. inv_Ok Hm0.
    apply N.eqb_neq in Hstart. rewrite Hstart, Hsplice. cbn [bind].
    destruct (Hstep s' Hs') as (m' & _ & Hm' & _).
    rewrite Hm'. cbn [bind]. now apply IH. }
  intros fuel sql Hsql. unfold searchAndReplace.
  destruct (Hstep sql Hsql) as (m & _ & Hm & _).
  rewrite Hm. cbn [bind]. now apply Hloop.
Qed.

Lemma searchAndReplace_never_stops_witness :
  searchAndReplace 1000 "f(1)" [Block.mk "f" false; Block.mk "(" false;
                                Block.mk "@x" true; Block.mk ")" false] "f(@x)"
  = NoFuel.
Proof.
  apply (searchAndReplace_never_stops _ _ (fun s => s = "f(1)")); [| reflexivity].
  intros s ->. do 2 eexists.
  split; [vm_compute; reflexivity |].
  split; [simpl; discriminate |].
  split; vm_compute; reflexivity.
Defined.

(** ** Rewriter: rules that do not apply *)

(** X21.  When the patterns of all the rules compile and no token of the
    lower-cased subject has the text of the first block of any of them,
    [translateSql] returns the subject as it is. *)
Theorem translateSql_without_first_literals
    (fuel : nat) (str : string) (toks : list Token.t) (rules : list (string * string)) :
  tokenize (toLowerCase str) = Ok toks ->
  Forall (fun rule =>
            exists pat first,
              parseSearchPattern (fst rule) = Ok pat /\ index pat 0 = Ok first /\
              forall t, In t toks -> Token.text t <> Block.text first)
         rules ->
  translateSql (S fuel) str rules = Ok str.
Proof.
  intros Htoks Hrules. apply translateSql_fixed.
  apply Forall_forall. intros rule Hin. rewrite Forall_forall in Hrules.
  destruct (Hrules rule Hin) as (pat & first & Hpat & Hfirst & Hno).
  exists pat. split; [exact Hpat |].
  destruct (compiled_first _ (parseSearchPattern_compiled _ _ Hpat))
    as (first' & Hfirst' & Hlit).
  rewrite Hfirst in Hfirst'. inv_Ok Hfirst'.
  unfold no_match, search. rewrite Htoks. cbn [bind].
  rewrite (search_loop_without_first str pat first' toks
             (mkMatcher 0 0 [] MatchedPattern.init) Hfirst Hlit eq_refl Hno).
  eexists. split; reflexivity.
Qed.

Lemma translateSql_without_first_literals_witness :
  translateSql 1 "SELECT a FROM t"
    [("getdate()", "now()"); ("top @n *", "* limit @n")]
  = Ok "SELECT a FROM t".
Proof.
  eapply (translateSql_without_first_literals 0 "SELECT a FROM t").
  - vm_compute; reflexivity.
  - repeat constructor; do 2 eexists;
      (split; [vm_compute; reflexivity |]);
      (split; [reflexivity |]);
      intros t Ht; simpl in Ht;
      repeat (destruct Ht as [<- | Ht]; [discriminate |]); contradiction.
Defined.
